(** * benoctopus/pkg: futures, wait combinators and process pipelines

    A shallow embedding of the Go packages [future] (future.go) and [sh]
    (the command runner and the command builder), and the properties of the
    specification that are checked against them.

    Pointers are handles (indices) into a store, goroutines started with
    [go] wait in a pool until the scheduler runs them, and everything the
    Go runtime decides (which goroutine runs, when time passes, which ready
    case a [select] takes) is an explicit input of the model. *)

From stdpp Require Import base option list numbers strings.

Open Scope Z_scope.

(** ** Package future *)
Module future.

(** Go's [error] values that occur in the package: the two errors of the
    context package and errors made by the task bodies. A nil error is
    [None : option error]. *)
Inductive error : Type :=
| Canceled
| DeadlineExceeded
| errors_New (msg : string).

#[global] Instance error_eq_dec : EqDecision error.
Proof. solve_decision. Defined.

(** *** The context package, as far as the futures use it

    A context is the never-cancelled [Background] or a derived context,
    named by its index in the store of context nodes. A node keeps its
    parent, its deadline and the error that [Err()] reports; the channel
    of [Done()] is closed exactly when that error is set. *)
Inductive Context : Type :=
| Background
| Ctx (c : nat).

Record ctxNode : Type := CtxNode {
  cparent : Context;
  cdeadline : option Z;
  cerr : option error;
}.

Definition ctx_Err (cs : list ctxNode) (c : Context) : option error :=
  match c with
  | Background => None
  | Ctx i => n ← cs !! i; cerr n
  end.

Definition ctx_Deadline (cs : list ctxNode) (c : Context) : option Z :=
  match c with
  | Background => None
  | Ctx i => n ← cs !! i; cdeadline n
  end.

Definition set_cerr (e : error) (n : ctxNode) : ctxNode :=
  match cerr n with
  | Some _ => n
  | None => {| cparent := cparent n; cdeadline := cdeadline n; cerr := Some e |}
  end.

(** Cancellation reaches the children of a cancelled context. A child is
    always allocated after its parent, so one pass in index order, each
    node looking its parent up among the nodes already passed, carries an
    error down every chain. *)
Fixpoint sweep (pre post : list ctxNode) : list ctxNode :=
  match post with
  | [] => pre
  | n :: post' =>
      let n' := match ctx_Err pre (cparent n) with
                | Some e => set_cerr e n
                | None => n
                end in
      sweep (pre ++ [n']) post'
  end.

Definition propagate (cs : list ctxNode) : list ctxNode := sweep [] cs.

(** The cancel function of context [c], called with error [e]: the first
    error sticks, later calls change nothing. *)
Definition cancel (c : nat) (e : error) (cs : list ctxNode) : list ctxNode :=
  propagate (alter (set_cerr e) c cs).

Definition cancel_ctx (c : Context) (e : error) (cs : list ctxNode) : list ctxNode :=
  match c with
  | Background => cs
  | Ctx i => cancel i e cs
  end.

(** Timers: every context whose deadline has passed is cancelled with
    [DeadlineExceeded]. *)
Definition expire (now : Z) (n : ctxNode) : ctxNode :=
  match cdeadline n with
  | Some d => if bool_decide (d ≤ now) then set_cerr DeadlineExceeded n else n
  | None => n
  end.

Definition fire (now : Z) (cs : list ctxNode) : list ctxNode :=
  propagate (expire now <$> cs).

Section WithT.
Context {T : Type}.

(** *** futureImpl

    [fn] is the task body; it is given what its context reports when it
    runs. [done] is the state of the channel (closed or not), [once] that
    of the [sync.Once]. The cancel function of the struct cancels [ctx];
    the mutex is implicit, every method being one step of the model. *)
Record futureImpl : Type := FutureImpl {
  res : T;
  err : option error;
  done : bool;
  fn : option error → T * option error;
  ctx : Context;
  once : bool;
}.

(** The program state: the contexts, the clock, the futures (a
    [*futureImpl] is an index of [futs]), the goroutines that [go
    fu.execute()] has spawned and that have not run yet, and whether a
    goroutine has panicked (closing a closed channel). [calls] counts, per
    future, how often its task body has been entered. *)
Record world : Type := World {
  ctxs : list ctxNode;
  now : Z;
  futs : list futureImpl;
  pool : list nat;
  calls : list nat;
  panicked : bool;
}.

Definition set_ctxs (cs : list ctxNode) (w : world) : world :=
  {| ctxs := cs; now := now w; futs := futs w; pool := pool w;
     calls := calls w; panicked := panicked w |}.

Definition set_futs (fs : list futureImpl) (w : world) : world :=
  {| ctxs := ctxs w; now := now w; futs := fs; pool := pool w;
     calls := calls w; panicked := panicked w |}.

Definition set_pool (p : list nat) (w : world) : world :=
  {| ctxs := ctxs w; now := now w; futs := futs w; pool := p;
     calls := calls w; panicked := panicked w |}.

(** context.WithCancel(parent): a new node below [parent]; it is born
    cancelled when the parent already is, and inherits its deadline. *)
Definition WithCancel (parent : Context) (w : world) : world * Context :=
  let n := {| cparent := parent;
              cdeadline := ctx_Deadline (ctxs w) parent;
              cerr := ctx_Err (ctxs w) parent |} in
  (set_ctxs (ctxs w ++ [n]) w, Ctx (length (ctxs w))).

(** context.WithTimeout(parent, d), that is WithDeadline(parent, now+d):
    when the parent's deadline is earlier the result is WithCancel(parent);
    otherwise the node gets the new deadline, and is cancelled at once
    when the parent is or when no time is left. *)
Definition WithTimeout (parent : Context) (d : Z) (w : world) : world * Context :=
  let dl := now w + d in
  if from_option (λ pd, bool_decide (pd < dl)) false (ctx_Deadline (ctxs w) parent)
  then WithCancel parent w
  else
    let n := {| cparent := parent; cdeadline := Some dl;
                cerr := match ctx_Err (ctxs w) parent with
                        | Some e => Some e
                        | None => if bool_decide (d ≤ 0) then Some DeadlineExceeded else None
                        end |} in
    (set_ctxs (ctxs w ++ [n]) w, Ctx (length (ctxs w))).

(** func New: a child context of [ctx], an open [done] channel, nothing
    started. The zero value of [T] fills the result slot. *)
Definition New (zero : T) (parent : Context)
    (f : option error → T * option error) (w : world) : world * nat :=
  let '(w1, child) := WithCancel parent w in
  let fu := {| res := zero; err := None; done := false; fn := f;
               ctx := child; once := false |} in
  ({| ctxs := ctxs w1; now := now w1; futs := futs w1 ++ [fu];
      pool := pool w1; calls := calls w1 ++ [0%nat]; panicked := panicked w1 |},
   length (futs w1)).

(** func (fu *futureImpl) Start: [once.Do] spawns the goroutine the first
    time only; the receiver is returned. *)
Definition Start (h : nat) (w : world) : world * nat :=
  match futs w !! h with
  | Some fu =>
      if once fu then (w, h)
      else
        let fu' := {| res := res fu; err := err fu; done := done fu; fn := fn fu;
                      ctx := ctx fu; once := true |} in
        (set_pool (pool w ++ [h]) (set_futs (<[h := fu']> (futs w)) w), h)
  | None => (w, h)
  end.

(** func (fu *futureImpl) Cancel *)
Definition Cancel (h : nat) (w : world) : world :=
  match futs w !! h with
  | Some fu => set_ctxs (cancel_ctx (ctx fu) Canceled (ctxs w)) w
  | None => w
  end.

(** func (fu *futureImpl) Done / IsDone: whether the channel is closed. *)
Definition IsDone (h : nat) (w : world) : bool :=
  match futs w !! h with
  | Some fu => done fu
  | None => false
  end.

(** func (fu *futureImpl) Wait: the receive from [done] goes through only
    on a closed channel; [None] is a caller that stays blocked in this
    state. Nothing is started and nothing is written. *)
Definition Wait (h : nat) (w : world) : option (T * option error) :=
  match futs w !! h with
  | Some fu => if done fu then Some (res fu, err fu) else None
  | None => None
  end.

(** func (fu *futureImpl) execute: the body runs, the two slots are
    written, and the deferred close fires; a second close of the channel
    panics. *)
Definition execute (h : nat) (w : world) : world :=
  match futs w !! h with
  | Some fu =>
      let '(r, e) := fn fu (ctx_Err (ctxs w) (ctx fu)) in
      let fu' := {| res := r; err := e; done := true; fn := fn fu;
                    ctx := ctx fu; once := once fu |} in
      {| ctxs := ctxs w; now := now w; futs := <[h := fu']> (futs w);
         pool := pool w; calls := alter S h (calls w);
         panicked := panicked w || done fu |}
  | None => w
  end.

(** func Start (the package function): New, then Start. *)
Definition StartNew (zero : T) (parent : Context)
    (f : option error → T * option error) (w : world) : world * nat :=
  let '(w1, h) := New zero parent f w in Start h w1.

(** *** What the rest of the program may do meanwhile *)
Inductive action : Type :=
| ARun (h : nat)            (* the scheduler runs a spawned execute goroutine *)
| ATick (dt : Z)            (* time passes *)
| ACancelCtx (c : nat)      (* the holder of a cancel function calls it *)
| AStart (h : nat)          (* some goroutine calls fu.Start() *)
| ACancel (h : nat)         (* some goroutine calls fu.Cancel() *)
| AWait (h : nat)           (* some goroutine calls fu.Wait() *)
| AIsDone (h : nat).        (* some goroutine calls fu.IsDone() or fu.Done() *)

Fixpoint remove_first (h : nat) (p : list nat) : list nat :=
  match p with
  | [] => []
  | x :: p' => if bool_decide (x = h) then p' else x :: remove_first h p'
  end.

Definition step (a : action) (w : world) : world :=
  match a with
  | ARun h =>
      if bool_decide (h ∈ pool w)
      then execute h (set_pool (remove_first h (pool w)) w)
      else w
  | ATick dt =>
      let t := now w + Z.max 0 dt in
      {| ctxs := fire t (ctxs w); now := t; futs := futs w; pool := pool w;
         calls := calls w; panicked := panicked w |}
  | ACancelCtx c => set_ctxs (cancel c Canceled (ctxs w)) w
  | AStart h => (Start h w).1
  | ACancel h => Cancel h w
  | AWait h => w
  | AIsDone h => w
  end.

Definition run (acts : list action) (w : world) : world :=
  foldl (λ w a, step a w) w acts.

(** [n] calls of Start on the same future, one after the other. *)
Fixpoint Start_times (n : nat) (h : nat) (w : world) : world :=
  match n with
  | O => w
  | S n' => Start_times n' h (Start h w).1
  end.

(** The goroutines of future [h] that wait in the pool, and how often its
    body has been entered. *)
Definition spawned (h : nat) (w : world) : nat :=
  length (filter (λ x, x = h) (pool w)).

Definition entered (h : nat) (w : world) : nat :=
  default 0%nat (calls w !! h).

(** The states a program can be in: goroutines and counters exist for
    allocated futures only. *)
Definition wf (w : world) : Prop :=
  length (calls w) = length (futs w) ∧ ∀ x, x ∈ pool w → (x < length (futs w))%nat.

(** The latch invariant of future [h]: as long as [once] has not fired
    there is neither a goroutine nor an earlier run of the body; after it
    has fired there is exactly one of the two. *)
Definition latch_inv (h : nat) (w : world) : Prop :=
  ∃ fu, futs w !! h = Some fu ∧ is_Some (calls w !! h) ∧
        (spawned h w + entered h w)%nat = (if once fu then 1 else 0)%nat.

(** A future that exists and that nobody has started. *)
Definition unstarted (h : nat) (w : world) : Prop :=
  ∃ fu, futs w !! h = Some fu ∧ once fu = false ∧ done fu = false ∧
        (h ∉ pool w) ∧ calls w !! h = Some 0%nat.

(** *** The combinators

    A [select] takes a case that is ready; with both ready the runtime
    picks one, here by the flag [tie] ([true] takes the future's case);
    with none ready the caller stays blocked. *)
Inductive choice : Type :=
| TakeFuture
| TakeCtx (e : error)
| Blocked.

Definition select (h : nat) (c : Context) (tie : bool) (w : world) : choice :=
  match IsDone h w, ctx_Err (ctxs w) c with
  | true, None => TakeFuture
  | false, Some e => TakeCtx e
  | true, Some e => if tie then TakeFuture else TakeCtx e
  | false, None => Blocked
  end.

(** What a combinator hands back: the Go results ([None] is the nil
    slice, or the nil error) and the futures it called [Cancel] on, in call
    order. *)
Record returned (A : Type) : Type := Returned {
  r_val : A;
  r_err : option error;
  r_cancelled : list nat;
}.
Global Arguments Returned {A} _ _ _.
Global Arguments r_val {A} _.
Global Arguments r_err {A} _.
Global Arguments r_cancelled {A} _.

(** A schedule says, for each [select] in turn, what the rest of the
    program does until the select is decided, and how a tie is broken. *)
Definition schedule : Type := list (list action * bool).

Definition sched_head (s : schedule) : list action * bool :=
  match s with
  | [] => ([], true)
  | x :: _ => x
  end.

(** The loop of WaitAll over the remaining futures [fus]; [all] is the
    whole argument list and [acc] the results appended so far. *)
Fixpoint WaitAll_loop (c : Context) (all fus : list nat) (s : schedule)
    (acc : list T) (w : world) : option (world * returned (option (list T))) :=
  match fus with
  | [] => Some (w, Returned (Some acc) None [])
  | h :: fus' =>
      let w1 := run (sched_head s).1 w in
      match select h c (sched_head s).2 w1 with
      | TakeFuture =>
          match Wait h w1 with
          | Some (r, Some e) => Some (w1, Returned None (Some e) [])
          | Some (r, None) => WaitAll_loop c all fus' (tail s) (acc ++ [r]) w1
          | None => None
          end
      | TakeCtx e =>
          Some (foldl (λ w h, Cancel h w) w1 all, Returned None (Some e) all)
      | Blocked => None
      end
  end.

(** The state in which the [k]-th select of the loop of WaitAll is
    decided (the selects before it having taken a future without error, the
    loop itself changes nothing), and the tie flag of that select. *)
Fixpoint world_at (s : schedule) (k : nat) (w : world) : world :=
  match k with
  | O => run (sched_head s).1 w
  | S k' => world_at (tail s) k' (run (sched_head s).1 w)
  end.

Definition tie_at (s : schedule) (k : nat) : bool := (sched_head (drop k s)).2.

(** The [j]-th future of [fus] is found completed without error by the
    [j]-th select, the scope [c] not being cancelled (or the tie going to
    the future). *)
Definition succeeds_at (c : Context) (fus : list nat) (s : schedule)
    (w : world) (j : nat) : Prop :=
  ∃ h fu, fus !! j = Some h ∧ futs (world_at s j w) !! h = Some fu ∧
          done fu = true ∧ err fu = None ∧
          (ctx_Err (ctxs (world_at s j w)) c = None ∨ tie_at s j = true).

(** The deferred cancel of the combinators' own scope. *)
Definition release (c : Context) (w : world) : world :=
  set_ctxs (cancel_ctx c Canceled (ctxs w)) w.

(** func WaitAll: the derived context, the loop, and the deferred cancel
    of the derived context on every return. *)
Definition WaitAll (parent : Context) (fus : list nat) (s : schedule)
    (w : world) : option (world * returned (option (list T))) :=
  let '(w0, c) := WithCancel parent w in
  '(w1, r) ← WaitAll_loop c fus fus s [] w0;
  Some (release c w1, r).

(** func WaitTimeout: a timeout context below Background, one select, and
    the deferred cancel. The named result [r] is the zero value on the
    timeout path. *)
Definition WaitTimeout (zero : T) (d : Z) (h : nat) (s : list action * bool)
    (w : world) : option (world * returned T) :=
  let '(w0, c) := WithTimeout Background d w in
  let w1 := run s.1 w0 in
  '(w2, r) ← match select h c s.2 w1 with
             | TakeFuture =>
                 '(r, e) ← Wait h w1; Some (w1, Returned r e [])
             | TakeCtx e =>
                 Some (Cancel h w1, Returned zero (Some e) [h])
             | Blocked => None
             end;
  Some (release c w2, r).


(** *** Whole programs

    A program creates futures with New and otherwise does what [action]
    lists. *)
Inductive op : Type :=
| Make (zero : T) (parent : Context) (f : option error → T * option error)
| Do (a : action).

Definition perform (o : op) (w : world) : world :=
  match o with
  | Make zero parent f => (New zero parent f w).1
  | Do a => step a w
  end.

Definition perform_all (prog : list op) (w : world) : world :=
  foldl (λ w o, perform o w) w prog.

Definition initial : world :=
  {| ctxs := []; now := 0; futs := []; pool := []; calls := []; panicked := false |}.

(** What every future of a running program satisfies: its latch, and a
    channel that is closed exactly when the body has been entered once. *)
Definition slot_inv (h : nat) (w : world) : Prop :=
  ∃ fu, futs w !! h = Some fu ∧
        (spawned h w + entered h w)%nat = (if once fu then 1 else 0)%nat ∧
        entered h w = (if done fu then 1 else 0)%nat.

Definition sound (w : world) : Prop :=
  wf w ∧ panicked w = false ∧ ∀ h, (h < length (futs w))%nat → slot_inv h w.

(** The goroutine of future [h] waits in the pool, to run body [f] under
    context [c]. *)
Definition pending (h : nat) (f : option error → T * option error) (c : Context)
    (w : world) : Prop :=
  ∃ fu, futs w !! h = Some fu ∧ fn fu = f ∧ ctx fu = c ∧ h ∈ pool w.

End WithT.

Global Arguments futureImpl : clear implicits.
Global Arguments world : clear implicits.

End future.

(** ** Package sh

    The stages of a pipeline live in a store, a [*cmdImpl] being an index
    of it. The goroutine that Start spawns for a stage waits in the pool; a
    receive from the stage's [done] channel that finds the channel open
    lets the scheduler run that goroutine, and [schedule] runs a goroutine
    that no receive is waiting for. What the external process does is a
    parameter, [os_exec]. *)
Module sh.

(** The exit status the operating system reports for a terminated
    process, and [ProcessState.ExitCode()] of the Go library: the exit
    code of a process that exited, -1 for a process that a signal ended. *)
Inductive ProcessState : Type :=
| Exited (code : Z)
| Signaled (sig : Z).

Definition ExitCode (ps : ProcessState) : Z :=
  match ps with
  | Exited c => c
  | Signaled _ => -1
  end.

(** The errors of [exec.Cmd.Run]: an [*exec.ExitError] for a process that
    ran and did not succeed, anything else (not found, I/O, context) as
    [OtherError]. *)
Inductive error : Type :=
| ExitError (ps : ProcessState)
| OtherError (msg : string).

#[global] Instance ProcessState_eq_dec : EqDecision ProcessState.
Proof. solve_decision. Defined.
#[global] Instance error_eq_dec : EqDecision error.
Proof. solve_decision. Defined.

Definition bytes : Type := list Byte.byte.

(** type resultImpl *)
Record resultImpl : Type := ResultImpl {
  exitCode : Z;
  stdout : bytes;
  stderr : bytes;
}.

(** type cmdImpl. [parent] is a handle of the store ([None] is nil). The
    two writers of the struct always include the two capture buffers
    (Build installs the buffers, WithStdout, WithStderr and
    WithInteractive only add writers next to them), so the output of the
    process is what the buffers receive. [env] lists the entries of the
    map, and [cancelled] is the state of the stage's own context. *)
Record cmdImpl : Type := CmdImpl {
  parent : option nat;
  cmd : string;
  args : list string;
  env : list (string * string);
  dir : string;
  stdoutBuffer : bytes;
  stderrBuffer : bytes;
  stdin : option bytes;
  cancelled : bool;
  result : option resultImpl;
  err : option error;
  done : bool;
  once : bool;
}.

(** What happens, in program order. *)
Inductive event : Type :=
| EvExecute (h : nat)     (* execute is entered for stage h *)
| EvSpawn (h : nat)       (* the external process of stage h is run *)
| EvClose (h : nat).      (* close(cm.done) of stage h *)

#[global] Instance event_eq_dec : EqDecision event.
Proof. solve_decision. Defined.

Record world : Type := World {
  cmds : list cmdImpl;
  pool : list nat;          (* goroutines spawned by Start, not yet run *)
  trace : list event;
}.

(** Stage [a] is [h] itself or one of the stages upstream of [h]. *)
Inductive on_chain (w : world) : nat → nat → Prop :=
| on_chain_self h : on_chain w h h
| on_chain_up h p a cm :
    cmds w !! h = Some cm → parent cm = Some p → on_chain w p a → on_chain w h a.

(** The parent links of two stores agree. *)
Definition same_parents (w w' : world) : Prop :=
  ∀ k, parent <$> cmds w' !! k = parent <$> cmds w !! k.

(** A call returns with a value in a new state, stays blocked, panics, or
    is [Stuck] on a store no program builds (a dangling handle, or a
    parent that is not older than its child). *)
Inductive outcome (A : Type) : Type :=
| Ret (a : A) (w : world)
| Blocks
| Panics (w : world)
| Stuck.
Global Arguments Ret {A} _ _.
Global Arguments Blocks {A}.
Global Arguments Panics {A} _.
Global Arguments Stuck {A}.

Definition bind {A B : Type} (m : outcome A) (k : A → world → outcome B) : outcome B :=
  match m with
  | Ret a w => k a w
  | Blocks => Blocks
  | Panics w => Panics w
  | Stuck => Stuck
  end.

Notation "'do' x , w <- m ; k" := (bind m (λ x w, k))
  (at level 10, x pattern, w name, m at level 100, k at level 200).

Definition set_cmd (h : nat) (cm : cmdImpl) (w : world) : world :=
  {| cmds := <[h := cm]> (cmds w); pool := pool w; trace := trace w |}.

Definition log (ev : event) (w : world) : world :=
  {| cmds := cmds w; pool := pool w; trace := trace w ++ [ev] |}.

Definition set_once (cm : cmdImpl) : cmdImpl :=
  {| parent := parent cm; cmd := cmd cm; args := args cm; env := env cm;
     dir := dir cm; stdoutBuffer := stdoutBuffer cm; stderrBuffer := stderrBuffer cm;
     stdin := stdin cm; cancelled := cancelled cm; result := result cm;
     err := err cm; done := done cm; once := true |}.

Definition set_done (cm : cmdImpl) : cmdImpl :=
  {| parent := parent cm; cmd := cmd cm; args := args cm; env := env cm;
     dir := dir cm; stdoutBuffer := stdoutBuffer cm; stderrBuffer := stderrBuffer cm;
     stdin := stdin cm; cancelled := cancelled cm; result := result cm;
     err := err cm; done := true; once := once cm |}.

Definition set_cancelled (cm : cmdImpl) : cmdImpl :=
  {| parent := parent cm; cmd := cmd cm; args := args cm; env := env cm;
     dir := dir cm; stdoutBuffer := stdoutBuffer cm; stderrBuffer := stderrBuffer cm;
     stdin := stdin cm; cancelled := true; result := result cm;
     err := err cm; done := done cm; once := once cm |}.

Definition set_stdin (i : option bytes) (cm : cmdImpl) : cmdImpl :=
  {| parent := parent cm; cmd := cmd cm; args := args cm; env := env cm;
     dir := dir cm; stdoutBuffer := stdoutBuffer cm; stderrBuffer := stderrBuffer cm;
     stdin := i; cancelled := cancelled cm; result := result cm;
     err := err cm; done := done cm; once := once cm |}.

Definition set_result (r : resultImpl) (e : option error) (cm : cmdImpl) : cmdImpl :=
  {| parent := parent cm; cmd := cmd cm; args := args cm; env := env cm;
     dir := dir cm; stdoutBuffer := stdoutBuffer cm; stderrBuffer := stderrBuffer cm;
     stdin := stdin cm; cancelled := cancelled cm; result := Some r;
     err := e; done := done cm; once := once cm |}.

Definition set_buffers (o e : bytes) (cm : cmdImpl) : cmdImpl :=
  {| parent := parent cm; cmd := cmd cm; args := args cm; env := env cm;
     dir := dir cm; stdoutBuffer := o; stderrBuffer := e;
     stdin := stdin cm; cancelled := cancelled cm; result := result cm;
     err := err cm; done := done cm; once := once cm |}.

(** *** The process launcher

    [exec.CommandContext(...)] followed by [cmd.Run()] is the operating
    system's business: given what the stage configures, it yields the
    error of Run and the bytes the process wrote. *)
Record launch : Type := Launch {
  l_cmd : string;
  l_args : list string;
  l_dir : string;
  l_env : list (string * string);
  l_stdin : option bytes;
  l_cancelled : bool;
}.

Record finished : Type := Finished {
  p_err : option error;
  p_stdout : bytes;
  p_stderr : bytes;
}.

(** What execute hands to the launcher. *)
Definition launch_of (cm : cmdImpl) : launch :=
  {| l_cmd := cmd cm; l_args := args cm; l_dir := dir cm; l_env := env cm;
     l_stdin := stdin cm; l_cancelled := cancelled cm |}.

Section WithLauncher.
Variable os_exec : launch → finished.

(** The last lines of execute: the exit code normalised from the error of
    Run. *)
Definition normalize (e : option error) : Z :=
  match e with
  | None => 0
  | Some (ExitError ps) => ExitCode ps
  | Some (OtherError _) => -1
  end.

(** The deferred [close(cm.done)]: closing a closed channel panics. *)
Definition close_done (h : nat) (w : world) : outcome () :=
  match cmds w !! h with
  | Some cm =>
      if done cm then Panics (log (EvClose h) w)
      else Ret () (log (EvClose h) (set_cmd h (set_done cm) w))
  | None => Stuck
  end.

(** execute from [exec.CommandContext] on: the process runs, its output
    is appended to the capture buffers, and result and error are
    stored. [after_process] is the stage once that has happened. *)
Definition after_process (cm : cmdImpl) : cmdImpl :=
  let p := os_exec (launch_of cm) in
  let out := stdoutBuffer cm ++ p_stdout p in
  let er := stderrBuffer cm ++ p_stderr p in
  set_result {| exitCode := normalize (p_err p); stdout := out; stderr := er |}
             (p_err p) (set_buffers out er cm).

Definition run_process (h : nat) (w : world) : outcome () :=
  match cmds w !! h with
  | Some cm => Ret () (set_cmd h (after_process cm) (log (EvSpawn h) w))
  | None => Stuck
  end.

(** func (cm *cmdImpl) Start: the parent first, then the stage's own
    [once.Do]. [n] bounds the length of the parent chain. *)
Fixpoint Start_n (n : nat) (h : nat) (w : world) : outcome () :=
  match n with
  | O => Stuck
  | S n' =>
      match cmds w !! h with
      | None => Stuck
      | Some cm =>
          do _, w1 <- match parent cm with
                      | Some p => Start_n n' p w
                      | None => Ret () w
                      end;
          match cmds w1 !! h with
          | None => Stuck
          | Some cm1 =>
              if once cm1 then Ret () w1
              else Ret () {| cmds := <[h := set_once cm1]> (cmds w1);
                             pool := pool w1 ++ [h]; trace := trace w1 |}
          end
      end
  end.

Definition Start (h : nat) (w : world) : outcome () := Start_n (S h) h w.

(** func (cm *cmdImpl) Cancel *)
Fixpoint Cancel_n (n : nat) (h : nat) (w : world) : outcome () :=
  match n with
  | O => Stuck
  | S n' =>
      match cmds w !! h with
      | None => Stuck
      | Some cm =>
          do _, w1 <- match parent cm with
                      | Some p => Cancel_n n' p w
                      | None => Ret () w
                      end;
          match cmds w1 !! h with
          | None => Stuck
          | Some cm1 => Ret () (set_cmd h (set_cancelled cm1) w1)
          end
      end
  end.

Definition Cancel (h : nat) (w : world) : outcome () := Cancel_n (S h) h w.

Definition wait_result : Type := option resultImpl * option error.

(** The result a stage stores when its upstream has failed. *)
Definition upstream_failed : resultImpl :=
  {| exitCode := -1; stdout := []; stderr := [] |}.

(** func (cm *cmdImpl) execute, given how the parent is waited for. *)
Definition execute_with (waitp : nat → world → outcome wait_result)
    (h : nat) (w : world) : outcome () :=
  match cmds (log (EvExecute h) w) !! h with
  | None => Stuck
  | Some cm =>
      match parent cm with
      | Some p =>
          do re, w1 <- waitp p (log (EvExecute h) w);
          match re.2 with
          | Some e =>
              match cmds w1 !! h with
              | None => Stuck
              | Some cm1 =>
                  close_done h (set_cmd h (set_result upstream_failed (Some e) cm1) w1)
              end
          | None =>
              match cmds w1 !! p, cmds w1 !! h with
              | Some pc, Some cm1 =>
                  do _, w2 <- run_process h
                                (set_cmd h (set_stdin (Some (stdoutBuffer pc)) cm1) w1);
                  close_done h w2
              | _, _ => Stuck
              end
          end
      | None =>
          do _, w1 <- run_process h (log (EvExecute h) w);
          close_done h w1
      end
  end.

Fixpoint remove_first (h : nat) (p : list nat) : list nat :=
  match p with
  | [] => []
  | x :: p' => if bool_decide (x = h) then p' else x :: remove_first h p'
  end.

(** The receive [<-cm.done]: it goes through on a closed channel; on an
    open one the caller sleeps and the scheduler runs the stage's spawned
    goroutine, if there is one, which closes the channel. *)
Definition await_done (exec : nat → world → outcome ()) (h : nat) (w : world)
    : outcome () :=
  match cmds w !! h with
  | None => Stuck
  | Some cm =>
      if done cm then Ret () w
      else if bool_decide (h ∈ pool w) then
        do _, w1 <- exec h {| cmds := cmds w; pool := remove_first h (pool w);
                              trace := trace w |};
        match cmds w1 !! h with
        | Some cm1 => if done cm1 then Ret () w1 else Blocks
        | None => Stuck
        end
      else Blocks
  end.

Definition stored (h : nat) (w : world) : outcome wait_result :=
  match cmds w !! h with
  | Some cm => Ret (result cm, err cm) w
  | None => Stuck
  end.

(** func (cm *cmdImpl) Wait *)
Fixpoint Wait_n (n : nat) (h : nat) (w : world) : outcome wait_result :=
  match n with
  | O => Stuck
  | S n' =>
      do _, w1 <- Start h w;
      match cmds w1 !! h with
      | None => Stuck
      | Some cm =>
          match parent cm with
          | Some p =>
              do re, w2 <- Wait_n n' p w1;
              match re.2 with
              | Some e => Ret re w2
              | None =>
                  do _, w3 <- await_done (execute_with (Wait_n n')) h w2;
                  stored h w3
              end
          | None =>
              do _, w3 <- await_done (execute_with (Wait_n n')) h w1;
              stored h w3
          end
      end
  end.

Definition Wait (h : nat) (w : world) : outcome wait_result := Wait_n (S h) h w.

Definition execute (h : nat) (w : world) : outcome () := execute_with (Wait_n h) h w.

(** func (cm *cmdImpl) Run *)
Definition Run (h : nat) (w : world) : outcome wait_result :=
  do _, w1 <- execute h w;
  stored h w1.

(** The scheduler runs the spawned goroutine of stage [h]. *)
Definition schedule (h : nat) (w : world) : outcome () :=
  if bool_decide (h ∈ pool w)
  then execute h {| cmds := cmds w; pool := remove_first h (pool w); trace := trace w |}
  else Ret () w.

End WithLauncher.

(** What a stage is made from: Build gives the command and its arguments,
    WithEnv, WithDir and WithStdin the rest. [stage] is such a stage before
    anything is started (empty buffers, nothing stored, the channel open,
    the latch unused), and [pipeline] the store of a chain built with Pipe,
    each stage having the one before it as its parent. *)
Record config : Type := Config {
  c_cmd : string;
  c_args : list string;
  c_env : list (string * string);
  c_dir : string;
  c_stdin : option bytes;
}.

Definition stage (up : option nat) (c : config) : cmdImpl :=
  {| parent := up; cmd := c_cmd c; args := c_args c; env := c_env c; dir := c_dir c;
     stdoutBuffer := []; stderrBuffer := []; stdin := c_stdin c;
     cancelled := false; result := None; err := None;
     done := false; once := false |}.

Definition pipeline (cs : list config) : world :=
  {| cmds := imap (λ k c, stage (match k with O => None | S k' => Some k' end) c) cs;
     pool := []; trace := [] |}.

(** *** The command builder

    [any] stands for Go's [any] in [Opt.Value] ([None] is the nil
    interface) and [Sprintf_v] for [fmt.Sprintf("%v", v)]. *)
Section Builder.
Context {any : Type}.
Variable Sprintf_v : any → string.

Inductive CmdComponent : Type :=
| Opt (Key : string) (Value : option any)
| Arg (Value : string).

(** type Builder; a [*Builder] is an [option Builder], nil being [None]. *)
Record Builder : Type := MkBuilder {
  Cmd : string;
  components : list CmdComponent;
}.

(** func (o *Opt) Items, func (o *Arg) Items *)
Definition component_Items (c : CmdComponent) : list string :=
  match c with
  | Opt k (Some v) => [k; Sprintf_v v]
  | Opt k None => if decide (k = "") then [] else [k]
  | Arg v => [v]
  end.

(** func (b *Builder) Items *)
Definition Items (b : option Builder) : list string :=
  match b with
  | None => []
  | Some b => Cmd b :: concat (component_Items <$> components b)
  end.

(** func (s *Builder) OptB, OptV, Arg ([Builder_Arg] here): the receiver is updated in place
    and returned. The outer [None] is the panic of a nil receiver whose
    field is touched. *)
Definition OptB (flag : string) (s : option Builder) : option (option Builder) :=
  if decide (flag = "") then Some s
  else b ← s;
       Some (Some {| Cmd := Cmd b; components := components b ++ [Opt flag None] |}).

Definition OptV (flag : string) (value : option any) (s : option Builder)
    : option (option Builder) :=
  if decide (flag = "") then Some s
  else b ← s;
       Some (Some {| Cmd := Cmd b; components := components b ++ [Opt flag value] |}).

Definition Builder_Arg (value : string) (s : option Builder) : option (option Builder) :=
  b ← s;
  Some (Some {| Cmd := Cmd b; components := components b ++ [Arg value] |}).

(** func New *)
Definition New (c : string) : option Builder :=
  Some {| Cmd := c; components := [] |}.

(** func (b *Builder) Build: the stage is allocated at the end of the
    store; [None] is the panic on an empty item list. *)
Definition Build (b : option Builder) (w : world) : option (world * nat) :=
  match Items b with
  | [] => None
  | c :: cmdArgs =>
      Some ({| cmds := cmds w ++ [stage None (Config c cmdArgs [] "" None)];
               pool := pool w; trace := trace w |},
            length (cmds w))
  end.

(** func (cm *cmdImpl) Pipe followed by func (pb *PipeBuilder) Build: the
    new stage gets [from] as its parent. *)
Definition PipeBuild (from : nat) (b : option Builder) (w : world)
    : option (world * nat) :=
  '(w1, h) ← Build b w;
  cm ← cmds w1 !! h;
  Some ({| cmds := <[h := {| parent := Some from; cmd := cmd cm; args := args cm;
                             env := env cm; dir := dir cm;
                             stdoutBuffer := stdoutBuffer cm;
                             stderrBuffer := stderrBuffer cm; stdin := stdin cm;
                             cancelled := cancelled cm; result := result cm;
                             err := err cm; done := done cm; once := once cm |}]>
                    (cmds w1);
           pool := pool w1; trace := trace w1 |}, h).

(** *** Builders behind pointers, and subcommands

    A subcommand keeps a pointer to its parent builder and embeds a pointer
    to a builder of its own, so the builders live in a store and a
    [*Builder] is an index of it ([None] is nil). [at_ptr] runs one of the
    methods above on the builder a pointer names and writes the updated
    builder back; its [None] is the method's panic. *)
Definition deref (st : list Builder) (p : option nat) : option Builder :=
  i ← p; st !! i.

Definition at_ptr (m : option Builder → option (option Builder))
    (p : option nat) (st : list Builder) : option (list Builder) :=
  r ← m (deref st p);
  match p, r with
  | Some i, Some b => Some (<[i := b]> st)
  | _, _ => Some st
  end.

(** type SubCmd *)
Record SubCmd : Type := MkSubCmd {
  sc_Builder : option nat;
  sc_parent : option nat;
}.

(** func (b *Builder) SubCommand *)
Definition SubCommand (name : string) (b : option nat) (st : list Builder)
    : list Builder * SubCmd :=
  (st ++ [{| Cmd := name; components := [] |}],
   {| sc_Builder := Some (length st); sc_parent := b |}).

(** func (s *SubCmd) Items; [None] is the panic on a nil embedded
    builder. *)
Definition SubCmd_Items (s : option SubCmd) (st : list Builder)
    : option (list string) :=
  match s with
  | None => Some []
  | Some s =>
      own ← deref st (sc_Builder s);
      Some (Items (deref st (sc_parent s))
            ++ Cmd own :: concat (component_Items <$> components own))
  end.

(** func (s *SubCmd) OptB, OptV, Arg: the embedded builder's methods. *)
Definition SubCmd_OptB (flag : string) (s : SubCmd) (st : list Builder)
    : option (list Builder) :=
  at_ptr (OptB flag) (sc_Builder s) st.

Definition SubCmd_OptV (flag : string) (value : option any) (s : SubCmd)
    (st : list Builder) : option (list Builder) :=
  at_ptr (OptV flag value) (sc_Builder s) st.

Definition SubCmd_Arg (value : string) (s : SubCmd) (st : list Builder)
    : option (list Builder) :=
  at_ptr (Builder_Arg value) (sc_Builder s) st.

(** Build called on a subcommand is the method of the embedded builder: a
    SubCmd has no Build of its own, and inside Build the call of Items is
    the builder's. *)
Definition SubCmd_Build (s : SubCmd) (st : list Builder) (w : world)
    : option (world * nat) :=
  Build (deref st (sc_Builder s)) w.

(** The configuration of the stage that Build makes from a builder. *)
Definition built (b : Builder) : config :=
  {| c_cmd := Cmd b; c_args := concat (component_Items <$> components b);
     c_env := []; c_dir := ""; c_stdin := None |}.

End Builder.

(** *** Chains

    A store that is one chain: the first stage has no parent, every other
    stage has the stage before it as its parent. *)
Definition chain_shaped (w : world) : Prop :=
  ∀ k cm, cmds w !! k = Some cm →
          parent cm = match k with O => None | S k' => Some k' end.

(** [f] applied to the stages up to [h]. *)
Definition upto (f : cmdImpl → cmdImpl) (h : nat) (l : list cmdImpl) : list cmdImpl :=
  imap (λ i cm, if bool_decide (i ≤ h)%nat then f cm else cm) l.

(** The stages up to [h] whose latch has not fired, upstream first. *)
Definition unlatched (h : nat) (l : list cmdImpl) : list nat :=
  filter (λ i, once <$> l !! i = Some false) (seq 0 (S h)).

(** *** Sequences of calls on one stage *)
Inductive call : Type :=
| CStart
| CCancel
| CWait.

#[global] Instance call_eq_dec : EqDecision call.
Proof. solve_decision. Defined.

(** The calls of [cs] made on stage [h] one after the other; the results
    of the calls of Wait are collected. *)
Fixpoint calls (os_exec : launch → finished) (h : nat) (cs : list call) (w : world)
    : outcome (list wait_result) :=
  match cs with
  | [] => Ret [] w
  | CStart :: cs' => do _, w1 <- Start h w; calls os_exec h cs' w1
  | CCancel :: cs' => do _, w1 <- Cancel h w; calls os_exec h cs' w1
  | CWait :: cs' =>
      do r, w1 <- Wait os_exec h w;
      do rs, w2 <- calls os_exec h cs' w1;
      Ret (r :: rs) w2
  end.



End sh.

(** ** Scenarios of the test files *)
Module scenarios.

(** *** future_test.go *)
Definition no_futures : future.world string :=
  {| future.ctxs := []; future.now := 0; future.futs := []; future.pool := [];
     future.calls := []; future.panicked := false |}.

(** A body that returns [v] unless it sees its context cancelled
    (TestCancel), and one that fails (TestErrorHandling). *)
Definition task (v : string) (seen : option future.error)
    : string * option future.error :=
  match seen with
  | Some e => ("", Some e)
  | None => (v, None)
  end.

Definition failing (msg : string) (seen : option future.error)
    : string * option future.error :=
  ("", Some (future.errors_New msg)).

(** Three started futures: A succeeds, B fails, C succeeds. *)
Definition three_futures : future.world string :=
  let '(w, _) := future.StartNew "" future.Background (task "a") no_futures in
  let '(w, _) := future.StartNew "" future.Background (failing "test error") w in
  let '(w, _) := future.StartNew "" future.Background (task "c") w in
  w.

(** *** cmd_test.go *)

(** A launcher for the commands of the tests: [false] exits with 1,
    [missing] cannot be started, [noisy] writes to both streams and exits
    with 2, [killed] dies of signal 9, and everything else writes a word
    and succeeds. *)
Definition shell (l : sh.launch) : sh.finished :=
  if decide (sh.l_cmd l = "false") then
    sh.Finished (Some (sh.ExitError (sh.Exited 1))) [] []
  else if decide (sh.l_cmd l = "missing") then
    sh.Finished (Some (sh.OtherError "executable file not found")) [] []
  else if decide (sh.l_cmd l = "noisy") then
    sh.Finished (Some (sh.ExitError (sh.Exited 2)))
                (String.list_byte_of_string "hi") (String.list_byte_of_string "oops")
  else if decide (sh.l_cmd l = "killed") then
    sh.Finished (Some (sh.ExitError (sh.Signaled 9))) [] []
  else sh.Finished None (String.list_byte_of_string "ok") [].

Definition no_stages : sh.world := {| sh.cmds := []; sh.pool := []; sh.trace := [] |}.

(** sh.New(c).Build(ctx) *)
Definition one_stage (c : string) : sh.world :=
  default no_stages (fst <$> sh.Build (any := string) id (sh.New c) no_stages).

(** sh.New(a).Build(ctx).Pipe(b).Build() *)
Definition two_stages (a b : string) : sh.world :=
  default no_stages
    ('(w, h) ← sh.Build (any := string) id (sh.New a) no_stages;
     fst <$> sh.PipeBuild id h (sh.New b) w).

End scenarios.

(** * Properties *)

(** ** Package future *)
Module future_proofs.
Import future.

Section Contexts.

Lemma set_cerr_cparent e n : cparent (set_cerr e n) = cparent n.
Proof. unfold set_cerr. by destruct (cerr n). Qed.

Lemma sweep_lookup_pre pre post i :
  (i < length pre)%nat → sweep pre post !! i = pre !! i.
Proof.
  revert pre. induction post as [|n post IH]; intros pre Hi; simpl; [done|].
  rewrite IH by (rewrite length_app; simpl; lia).
  by rewrite lookup_app_l.
Qed.

(** A context directly below Background is out of reach of every
    propagation. *)
Lemma sweep_lookup_root pre post j n :
  post !! j = Some n → cparent n = Background →
  sweep pre post !! (length pre + j)%nat = Some n.
Proof.
  revert pre j. induction post as [|m post IH]; intros pre j Hj Hroot; [done|].
  destruct j as [|j]; simpl in *.
  - injection Hj as ->. rewrite Hroot. simpl.
    rewrite sweep_lookup_pre by (rewrite length_app; simpl; lia).
    rewrite Nat.add_0_r. by rewrite lookup_app_r, Nat.sub_diag by lia.
  - specialize (IH (pre ++ [match ctx_Err pre (cparent m) with
                             | Some e => set_cerr e m
                             | None => m
                             end]) j Hj Hroot).
    rewrite length_app in IH. simpl in IH.
    by replace (length pre + S j)%nat with (length pre + 1 + j)%nat by lia.
Qed.

Lemma propagate_lookup_root cs j n :
  cs !! j = Some n → cparent n = Background → propagate cs !! j = Some n.
Proof. intros. by apply (sweep_lookup_root [] cs j n). Qed.


Lemma fire_lookup_root t cs j n :
  cs !! j = Some n → cparent n = Background →
  fire t cs !! j = Some (expire t n).
Proof.
  intros Hj Hroot. unfold fire. apply propagate_lookup_root.
  - by rewrite list_lookup_fmap, Hj.
  - unfold expire. destruct (cdeadline n); [|done].
    case_bool_decide; [|done]. by rewrite set_cerr_cparent.
Qed.

Lemma sweep_length pre post : length (sweep pre post) = (length pre + length post)%nat.
Proof.
  revert pre. induction post as [|n post IH]; intros pre; simpl; [lia|].
  rewrite IH, length_app. simpl. lia.
Qed.

Lemma propagate_length cs : length (propagate cs) = length cs.
Proof. unfold propagate. by rewrite sweep_length. Qed.

Lemma cancel_length c e cs : length (cancel c e cs) = length cs.
Proof. unfold cancel. by rewrite propagate_length, length_alter. Qed.

(** An error that is set stays as it is in every propagation. *)
Lemma sweep_lookup_set pre post j n e :
  post !! j = Some n → cerr n = Some e →
  sweep pre post !! (length pre + j)%nat = Some n.
Proof.
  revert pre j. induction post as [|m post IH]; intros pre j Hj He; [done|].
  destruct j as [|j]; simpl in *.
  - injection Hj as ->.
    rewrite sweep_lookup_pre by (rewrite length_app; simpl; lia).
    rewrite Nat.add_0_r, lookup_app_r, Nat.sub_diag by lia. simpl.
    destruct (ctx_Err pre (cparent n)); [|done].
    unfold set_cerr. by rewrite He.
  - specialize (IH (pre ++ [match ctx_Err pre (cparent m) with
                             | Some e => set_cerr e m
                             | None => m
                             end]) j Hj He).
    rewrite length_app in IH. simpl in IH.
    by replace (length pre + S j)%nat with (length pre + 1 + j)%nat by lia.
Qed.

(** A context whose parent, allocated before it, ends up cancelled is
    cancelled with the parent's error, unless it had an error already. *)
Lemma sweep_lookup_child pre post j n p :
  post !! j = Some n → cparent n = Ctx p → (p < length pre + j)%nat →
  sweep pre post !! (length pre + j)%nat
  = Some match sweep pre post !! p ≫= cerr with
         | Some e => set_cerr e n
         | None => n
         end.
Proof.
  revert pre j. induction post as [|m post IH]; intros pre j Hj Hp Hlt; [done|].
  destruct j as [|j]; simpl in *.
  - injection Hj as ->. rewrite Nat.add_0_r in *.
    rewrite !sweep_lookup_pre by (rewrite length_app; simpl; lia).
    rewrite lookup_app_r, Nat.sub_diag by lia. simpl.
    rewrite Hp. simpl. by rewrite lookup_app_l by lia.
  - specialize (IH (pre ++ [match ctx_Err pre (cparent m) with
                             | Some e => set_cerr e m
                             | None => m
                             end]) j Hj Hp).
    rewrite length_app in IH. simpl in IH.
    replace (length pre + S j)%nat with (length pre + 1 + j)%nat by lia.
    apply IH. lia.
Qed.

Lemma ctx_Err_cancel_sticky i e' cs c e :
  ctx_Err cs c = Some e → ctx_Err (cancel i e' cs) c = Some e.
Proof.
  destruct c as [|k]; [done|]. simpl. intros He.
  destruct (cs !! k) as [n|] eqn:Hk; [|done]. simpl in He.
  unfold cancel, propagate.
  rewrite (sweep_lookup_set [] _ k n e); [done| |done].
  destruct (decide (i = k)) as [->|Hne].
  - rewrite list_lookup_alter_eq, Hk. simpl. unfold set_cerr. by rewrite He.
  - by rewrite list_lookup_alter_ne.
Qed.

Lemma ctx_Err_cancel_ctx_sticky c' e' cs c e :
  ctx_Err cs c = Some e → ctx_Err (cancel_ctx c' e' cs) c = Some e.
Proof. destruct c'; [done|]. apply ctx_Err_cancel_sticky. Qed.

Lemma ctx_Err_fire_sticky t cs c e :
  ctx_Err cs c = Some e → ctx_Err (fire t cs) c = Some e.
Proof.
  destruct c as [|k]; [done|]. simpl. intros He.
  destruct (cs !! k) as [n|] eqn:Hk; [|done]. simpl in He.
  unfold fire, propagate.
  rewrite (sweep_lookup_set [] _ k n e); [done| |done].
  rewrite list_lookup_fmap, Hk. simpl. unfold expire.
  destruct (cdeadline n); [|done]. case_bool_decide; [|done].
  unfold set_cerr. by rewrite He.
Qed.

(** The cancel function sets the error of its own context when none is
    set. *)
Lemma ctx_Err_cancel_self i e cs n :
  cs !! i = Some n → cerr n = None → ctx_Err (cancel i e cs) (Ctx i) = Some e.
Proof.
  intros Hi He. simpl. unfold cancel, propagate.
  rewrite (sweep_lookup_set [] _ i (set_cerr e n) e).
  - simpl. unfold set_cerr. by rewrite He.
  - by rewrite list_lookup_alter_eq, Hi.
  - unfold set_cerr. by rewrite He.
Qed.

(** Cancelling a context cancels a child that was derived from it. *)
Lemma ctx_Err_cancel_child p e cs n m k :
  cs !! p = Some n → cerr n = None →
  cs !! k = Some m → cparent m = Ctx p → cerr m = None → (p < k)%nat →
  ctx_Err (cancel p e cs) (Ctx k) = Some e.
Proof.
  intros Hp Hn Hk Hpar Hm Hlt.
  pose proof (ctx_Err_cancel_self p e cs n Hp Hn) as Hself. simpl in Hself.
  simpl. unfold cancel, propagate in *.
  rewrite (sweep_lookup_child [] _ k m p); [| |done|simpl; lia].
  - simpl. destruct (sweep [] _ !! p) as [n'|]; [|done]. simpl in *.
    rewrite Hself. simpl. unfold set_cerr. by rewrite Hm.
  - rewrite list_lookup_alter_ne by lia. done.
Qed.

End Contexts.

Section Futures.
Context {T : Type}.
Implicit Types (w : world T) (fu : futureImpl T) (h : nat).

(** *** The start latch *)

Lemma Start_handle h w : (Start h w).2 = h.
Proof. unfold Start. destruct (futs w !! h) as [fu|]; [|done]. by destruct (once fu). Qed.

Lemma Start_again h w fu :
  futs w !! h = Some fu → once fu = true → Start h w = (w, h).
Proof. intros Hh Ho. unfold Start. by rewrite Hh, Ho. Qed.

Lemma Start_sets_once h w fu :
  futs w !! h = Some fu → ∃ fu', futs (Start h w).1 !! h = Some fu' ∧ once fu' = true.
Proof.
  intros Hh. unfold Start. rewrite Hh.
  destruct (once fu) eqn:Ho; simpl; [by eauto|].
  eexists. split; [apply list_lookup_insert_eq; by eapply lookup_lt_Some | done].
Qed.

Lemma Start_times_once n h w fu :
  futs w !! h = Some fu → once fu = true → Start_times n h w = w.
Proof.
  intros Hh Ho. induction n as [|n IH]; [done|].
  simpl. by rewrite (Start_again h w fu).
Qed.

Lemma Start_times_first n h w : Start_times (S n) h w = (Start h w).1.
Proof.
  simpl. destruct (futs w !! h) as [fu|] eqn:Hh.
  - destruct (Start_sets_once h w fu Hh) as (fu' & Hfu' & Ho).
    by apply (Start_times_once n h _ fu').
  - unfold Start. rewrite Hh. simpl.
    induction n as [|n IH]; [done|]. simpl. unfold Start at 1. by rewrite Hh.
Qed.

Lemma filter_eq_snoc (h x : nat) (p : list nat) :
  length (filter (λ y, y = h) (p ++ [x]))
  = (length (filter (λ y, y = h) p) + (if bool_decide (x = h) then 1 else 0))%nat.
Proof.
  rewrite filter_app, length_app. f_equal.
  rewrite filter_cons, filter_nil.
  case_decide; case_bool_decide; done.
Qed.

Lemma filter_eq_remove_first_ne (h x : nat) (p : list nat) :
  x ≠ h →
  length (filter (λ y, y = h) (remove_first x p)) = length (filter (λ y, y = h) p).
Proof.
  intros Hne. induction p as [|y p IH]; [done|]. simpl.
  case_bool_decide as Hy.
  - subst y. rewrite filter_cons. by case_decide.
  - rewrite !filter_cons. case_decide; simpl; by rewrite IH.
Qed.

Lemma filter_eq_remove_first (h : nat) (p : list nat) :
  h ∈ p →
  S (length (filter (λ y, y = h) (remove_first h p))) = length (filter (λ y, y = h) p).
Proof.
  induction p as [|y p IH]; intros Hin; [by apply elem_of_nil in Hin|]. simpl.
  case_bool_decide as Hy.
  - subst y. rewrite filter_cons. by case_decide.
  - apply elem_of_cons in Hin as [->|Hin]; [done|].
    rewrite !filter_cons. case_decide; [done|]. by apply IH.
Qed.

Lemma filter_eq_absent (h : nat) (p : list nat) :
  h ∉ p → length (filter (λ y, y = h) p) = 0%nat.
Proof.
  induction p as [|y p IH]; intros Hin; [done|].
  apply not_elem_of_cons in Hin as [Hne Hin].
  rewrite filter_cons. case_decide; [congruence|]. by apply IH.
Qed.


Lemma latch_inv_execute h h' w fu :
  futs w !! h = Some fu → is_Some (calls w !! h) →
  ∃ fu', futs (execute h' w) !! h = Some fu' ∧ once fu' = once fu ∧
         is_Some (calls (execute h' w) !! h) ∧
         pool (execute h' w) = pool w ∧
         entered h (execute h' w)
         = (entered h w + (if bool_decide (h' = h ) then 1 else 0))%nat.
Proof.
  intros Hh [n Hn]. unfold execute, entered.
  destruct (futs w !! h') as [fu1|] eqn:Hh'.
  - destruct (fn fu1 _) as [r e]. simpl.
    case_bool_decide as Heq.
    + subst h'. rewrite Hh in Hh'. injection Hh' as <-.
      eexists. split; [apply list_lookup_insert_eq; by eapply lookup_lt_Some|].
      rewrite list_lookup_alter_eq, Hn. simpl. repeat split; eauto; lia.
    + exists fu. rewrite list_lookup_insert_ne, list_lookup_alter_ne, Hn by done.
      simpl. repeat split; eauto; lia.
  - exists fu. rewrite Hn. simpl. case_bool_decide as Heq.
    + subst h'. congruence.
    + repeat split; eauto; lia.
Qed.

Lemma latch_inv_step a h w : latch_inv h w → latch_inv h (step a w).
Proof.
  intros (fu & Hh & Hc & Hsum). destruct a as [h'|dt|c|h'|h'|h'|h']; simpl;
    try (by exists fu).
  - (* the scheduler runs a goroutine *)
    case_bool_decide as Hin; [|by exists fu].
    destruct (latch_inv_execute h h' (set_pool (remove_first h' (pool w)) w) fu Hh Hc)
      as (fu' & Hfu' & Ho & Hc' & Hp & He).
    exists fu'. split; [done|]. split; [done|]. rewrite Ho, <- Hsum.
    unfold spawned. rewrite Hp, He. unfold entered at 1. simpl.
    fold (entered h w). case_bool_decide as Heq.
    + subst h'. pose proof (filter_eq_remove_first h (pool w) Hin). lia.
    + rewrite filter_eq_remove_first_ne by done. lia.
  - (* a call of Start *)
    unfold Start. destruct (futs w !! h') as [fu1|] eqn:Hh'; [|by exists fu].
    destruct (once fu1) eqn:Ho1; [by exists fu|]. simpl.
    destruct (decide (h' = h)) as [->|Hne].
    + rewrite Hh in Hh'. injection Hh' as <-.
      eexists. split; [apply list_lookup_insert_eq; by eapply lookup_lt_Some|].
      split; [done|]. simpl. unfold spawned, entered in *. simpl.
      rewrite filter_eq_snoc, bool_decide_true by done. rewrite Ho1 in Hsum. lia.
    + exists fu. simpl. rewrite list_lookup_insert_ne by done. split; [done|].
      split; [done|]. unfold spawned, entered in *. simpl.
      rewrite filter_eq_snoc, bool_decide_false by done. lia.
  - (* a call of Cancel *)
    unfold Cancel. destruct (futs w !! h'); by exists fu.
Qed.

Lemma latch_inv_run acts h w : latch_inv h w → latch_inv h (run acts w).
Proof.
  revert w. induction acts as [|a acts IH]; intros w Hinv; [done|].
  apply IH. by apply latch_inv_step.
Qed.

Lemma New_lookup zero parent f w :
  futs (New zero parent f w).1 !! (New zero parent f w).2
  = Some {| res := zero; err := None; done := false; fn := f;
            ctx := Ctx (length (ctxs w)); once := false |}.
Proof. simpl. by rewrite lookup_app_r, Nat.sub_diag by lia. Qed.

Lemma New_latch_inv zero parent f w :
  wf w → latch_inv (New zero parent f w).2 (New zero parent f w).1.
Proof.
  intros [Hlen Hpool]. eexists. split; [apply New_lookup|].
  unfold spawned, entered. simpl.
  rewrite lookup_app_r, Hlen, Nat.sub_diag by lia. split; [by eauto|]. simpl.
  rewrite filter_eq_absent; [done|].
  intros Hin. apply Hpool in Hin. lia.
Qed.


(** C8: on a future made by New, every call of Start returns the
    receiver, the first call spawns the one goroutine that runs the task,
    the calls after it change nothing (N calls leave the state of one
    call), and however calls of Start and runs of the scheduler interleave
    the task body is entered at most once. *)
Theorem Start_schedules_once zero parent f (w0 : world T) (N : nat) acts :
  wf w0 → (1 ≤ N)%nat →
  let w := (New zero parent f w0).1 in
  let h := (New zero parent f w0).2 in
  (∀ w', (Start h w').2 = h) ∧
  pool (Start h w).1 = pool w ++ [h] ∧
  Start_times N h w = (Start h w).1 ∧
  (∀ w' fu, futs w' !! h = Some fu → once fu = true → Start h w' = (w', h)) ∧
  (entered h (run acts w) ≤ 1)%nat.
Proof.
  intros Hwf HN w h. split; [intros w'; apply Start_handle|].
  split.
  { unfold Start. subst w h. by rewrite New_lookup. }
  split.
  { destruct N as [|N]; [lia|]. apply Start_times_first. }
  split; [intros w' fu; apply Start_again|].
  destruct (latch_inv_run acts h w (New_latch_inv zero parent f w0 Hwf))
    as (fu & _ & _ & Hsum).
  destruct (once fu); lia.
Qed.

(** *** Wait on a future that nobody starts *)


Lemma remove_first_subseteq (x h : nat) (p : list nat) :
  x ∈ remove_first h p → x ∈ p.
Proof.
  induction p as [|y p IH]; simpl; [done|].
  case_bool_decide; intros Hin; [by apply elem_of_cons; right|].
  apply elem_of_cons in Hin as [->|Hin]; apply elem_of_cons; [by left|right; auto].
Qed.

Lemma unstarted_step a h w :
  a ≠ AStart h → unstarted h w → unstarted h (step a w).
Proof.
  intros Ha (fu & Hh & Ho & Hd & Hp & Hc).
  destruct a as [h'|dt|c|h'|h'|h'|h']; simpl; try (by exists fu).
  - case_bool_decide as Hin; [|by exists fu].
    assert (h' ≠ h) as Hne by (intros ->; done).
    exists fu. unfold execute. simpl.
    destruct (futs w !! h') as [fu1|]; [destruct (fn fu1 _) as [r e]|]; simpl.
    + rewrite list_lookup_insert_ne, list_lookup_alter_ne by done.
      repeat split; try done. intros Hx. by apply remove_first_subseteq in Hx.
    + repeat split; try done. intros Hx. by apply remove_first_subseteq in Hx.
  - assert (h' ≠ h) as Hne by (intros ->; done).
    exists fu. unfold Start.
    destruct (futs w !! h') as [fu1|]; [destruct (once fu1)|]; simpl; try done.
    rewrite list_lookup_insert_ne by done. repeat split; try done.
    intros Hx. apply elem_of_app in Hx as [Hx|Hx]; [done|].
    apply list_elem_of_singleton in Hx. done.
  - unfold Cancel. destruct (futs w !! h'); by exists fu.
Qed.

Lemma unstarted_run acts h w :
  AStart h ∉ acts → unstarted h w → unstarted h (run acts w).
Proof.
  revert w. induction acts as [|a acts IH]; intros w Hno Hun; [done|].
  apply not_elem_of_cons in Hno as [Hne Hno].
  apply IH; [done|]. apply unstarted_step; [congruence|done].
Qed.

Lemma New_unstarted zero parent f w :
  wf w → unstarted (New zero parent f w).2 (New zero parent f w).1.
Proof.
  intros [Hlen Hpool]. eexists. split; [apply New_lookup|].
  simpl. repeat split; try done.
  - intros Hin. apply Hpool in Hin. lia.
  - by rewrite lookup_app_r, Hlen, Nat.sub_diag by lia.
Qed.

(** C9: a future made by New on which no one calls Start stays pending
    whatever else the program does (runs of the scheduler, time, cancels,
    calls of Wait, IsDone and of Start on other futures): in every state
    reached, Wait is blocked, no goroutine of the future has been spawned
    and its body has not been entered. *)
Theorem Wait_without_Start_blocks zero parent f (w0 : world T) acts :
  wf w0 →
  AStart (New zero parent f w0).2 ∉ acts →
  let w := run acts (New zero parent f w0).1 in
  let h := (New zero parent f w0).2 in
  Wait h w = None ∧ spawned h w = 0%nat ∧ entered h w = 0%nat ∧
  step (AWait h) w = w.
Proof.
  intros Hwf Hno w h.
  destruct (unstarted_run acts h _ Hno (New_unstarted zero parent f w0 Hwf))
    as (fu & Hh & Ho & Hd & Hp & Hc).
  fold w in Hh, Hp, Hc. unfold Wait, spawned, entered.
  rewrite Hh, Hd, Hc. repeat split; try done.
  by apply filter_eq_absent.
Qed.


(** *** WaitAll *)



Lemma tie_at_S s j : tie_at s (S j) = tie_at (tail s) j.
Proof. unfold tie_at. destruct s; [by destruct j|done]. Qed.


Lemma succeeds_at_cons c h0 fus s w j :
  succeeds_at c fus (tail s) (run (sched_head s).1 w) j →
  succeeds_at c (h0 :: fus) s w (S j).
Proof. unfold succeeds_at. simpl. by rewrite tie_at_S. Qed.





(** Conversely, the loop calls Cancel only on the scope's cancellation,
    and then on every future. *)
Lemma WaitAll_loop_cancelled c all fus s acc w w' r :
  WaitAll_loop c all fus s acc w = Some (w', r) →
  r_cancelled r = [] ∨
  ∃ k e, (k < length fus)%nat ∧ (∀ j, (j < k)%nat → succeeds_at c fus s w j) ∧
         ctx_Err (ctxs (world_at s k w)) c = Some e ∧
         w' = foldl (λ w h, Cancel h w) (world_at s k w) all ∧
         r = Returned None (Some e) all.
Proof.
  revert s acc w. induction fus as [|h fus IH]; intros s acc w Hret; simpl in Hret.
  { injection Hret as <- <-. by left. }
  assert (∀ w1 : world T,
             w1 = run (sched_head s).1 w → IsDone h w1 = true →
             ctx_Err (ctxs w1) c = None ∨ (sched_head s).2 = true →
             match Wait h w1 with
             | Some (_, Some e) => Some (w1, Returned None (Some e) [])
             | Some (r, None) => WaitAll_loop c all fus (tail s) (acc ++ [r]) w1
             | None => None
             end = Some (w', r) →
             r_cancelled r = [] ∨
             ∃ k e, (k < length (h :: fus))%nat ∧
                    (∀ j, (j < k)%nat → succeeds_at c (h :: fus) s w j) ∧
                    ctx_Err (ctxs (world_at s k w)) c = Some e ∧
                    w' = foldl (λ w h, Cancel h w) (world_at s k w) all ∧
                    r = Returned None (Some e) all) as Hfuture.
  { intros w1 -> Hd Hc Hw.
    destruct (Wait h _) as [[r0 [e0|]]|] eqn:HW; [| |done].
    { injection Hw as <- <-. by left. }
    destruct (IH _ _ _ Hw) as [Hnil|(k & e' & Hk & Hpre & Hc' & Hw' & Hr)];
      [by left|right].
    exists (S k), e'. simpl. split; [lia|]. split; [|done].
    intros [|j] Hj; [|apply succeeds_at_cons, Hpre; lia].
    unfold Wait, IsDone in *.
    destruct (futs _ !! h) as [fu|] eqn:Hh; [|done]. rewrite Hd in HW.
    injection HW as <- He0. exists h, fu. unfold tie_at. simpl. repeat split; auto. }
  unfold select in Hret.
  destruct (IsDone h _) eqn:Hd, (ctx_Err _ c) as [e|] eqn:Hc;
    [destruct ((sched_head s).2) eqn:Htie| | |done].
  - (* both ready, the future is taken *) eapply Hfuture; eauto.
  - (* both ready, the scope is taken *)
    injection Hret as <- <-. right. exists 0%nat, e. simpl.
    split; [lia|]. split; [intros j Hj; lia|done].
  - (* only the future is ready *) eapply Hfuture; eauto.
  - (* only the scope is ready *)
    injection Hret as <- <-. right. exists 0%nat, e. simpl.
    split; [lia|]. split; [intros j Hj; lia|done].
Qed.


(** *** WaitTimeout *)






Lemma WithTimeout_Background d w :
  WithTimeout Background d w
  = (set_ctxs (ctxs w ++ [{| cparent := Background; cdeadline := Some (now w + d);
                             cerr := if bool_decide (d ≤ 0)
                                     then Some DeadlineExceeded else None |}]) w,
     Ctx (length (ctxs w))).
Proof. done. Qed.


(** *** Programs: the latch and the channel of every future *)

Lemma spawned_pos h w : h ∈ pool w → (0 < spawned h w)%nat.
Proof.
  intros Hin. unfold spawned.
  pose proof (filter_eq_remove_first h (pool w) Hin). lia.
Qed.

(** A future whose goroutine waits in the pool has fired its latch and has
    not run. *)
Lemma sound_pool h w :
  sound w → h ∈ pool w →
  ∃ fu, futs w !! h = Some fu ∧ once fu = true ∧ done fu = false ∧
        entered h w = 0%nat ∧ spawned h w = 1%nat.
Proof.
  intros ([Hlen Hpool] & _ & Hall) Hin.
  destruct (Hall h (Hpool h Hin)) as (fu & Hh & Hsum & Hent).
  pose proof (spawned_pos h w Hin).
  exists fu. destruct (once fu), (done fu); repeat split; try done; lia.
Qed.

Lemma sound_step a w : sound w → sound (step a w).
Proof.
  intros Hs. pose proof Hs as ([Hlen Hpool] & Hpan & Hall).
  destruct a as [h'|dt|c|h'|h'|h'|h']; simpl; try done.
  - (* the scheduler runs a goroutine *)
    case_bool_decide as Hin; [|done].
    destruct (sound_pool h' w Hs Hin) as (fu1 & Hh' & Ho1 & Hd1 & He1 & Hsp1).
    unfold execute. simpl. rewrite Hh'. destruct (fn fu1 _) as [r e].
    split; [|split].
    + split; simpl; [by rewrite length_alter, length_insert|].
      intros x Hx%remove_first_subseteq. rewrite length_insert. by apply Hpool.
    + simpl. by rewrite Hpan, Hd1.
    + simpl. rewrite length_insert. intros h Hh.
      destruct (Hall h Hh) as (fu & Hfu & Hsum & Hent).
      unfold slot_inv, spawned, entered in *. simpl.
      destruct (decide (h = h')) as [->|Hne].
      * rewrite list_lookup_insert_eq by done.
        eexists. split; [done|]. simpl.
        rewrite list_lookup_alter_eq.
        destruct (calls w !! h') as [n|] eqn:Hn; simpl in *.
        -- pose proof (filter_eq_remove_first h' (pool w) Hin).
           rewrite Ho1. subst n. lia.
        -- apply lookup_ge_None in Hn. lia.
      * rewrite list_lookup_insert_ne, list_lookup_alter_ne by done.
        exists fu. by rewrite filter_eq_remove_first_ne.
  - (* a call of Start *)
    unfold Start. destruct (futs w !! h') as [fu1|] eqn:Hh'; [|done].
    destruct (once fu1) eqn:Ho1; [done|]. simpl.
    assert (h' < length (futs w))%nat as Hlt by (by eapply lookup_lt_Some).
    destruct (Hall h' Hlt) as (fu1' & Hfu1 & Hsum1 & Hent1).
    rewrite Hh' in Hfu1. injection Hfu1 as <-. rewrite Ho1 in Hsum1.
    split; [|split]; [|done|].
    + split; simpl; [by rewrite length_insert|].
      rewrite length_insert. intros x [Hx|Hx%list_elem_of_singleton]%elem_of_app;
        [by apply Hpool|by subst].
    + simpl. rewrite length_insert. intros h Hh.
      destruct (Hall h Hh) as (fu & Hfu & Hsum & Hent).
      unfold slot_inv, spawned, entered in *. simpl.
      rewrite filter_eq_snoc.
      destruct (decide (h = h')) as [->|Hne].
      * rewrite list_lookup_insert_eq, bool_decide_true by done.
        eexists. split; [done|]. simpl.
        rewrite Hh' in Hfu. injection Hfu as <-. split; [lia|done].
      * rewrite list_lookup_insert_ne, bool_decide_false by done.
        exists fu. split; [done|]. split; [lia|done].
  - (* a call of Cancel *)
    unfold Cancel. by destruct (futs w !! h').
Qed.

Lemma sound_New zero parent f w : sound w → sound (New zero parent f w).1.
Proof.
  intros ([Hlen Hpool] & Hpan & Hall). split; [|split]; [|done|].
  - split; simpl; [by rewrite !length_app, Hlen|].
    intros x Hx. rewrite length_app. apply Hpool in Hx. lia.
  - simpl. rewrite length_app. simpl. intros h Hh.
    unfold slot_inv, spawned, entered. simpl.
    destruct (decide (h < length (futs w))%nat) as [Hlt|Hge].
    + destruct (Hall h Hlt) as (fu & Hfu & Hsum & Hent).
      exists fu. rewrite !lookup_app_l by lia. done.
    + assert (h = length (futs w)) as -> by lia.
      eexists. rewrite lookup_app_r, Nat.sub_diag by lia. split; [done|].
      rewrite lookup_app_r, Hlen, Nat.sub_diag by lia. simpl.
      rewrite filter_eq_absent; [done|].
      intros Hin. apply Hpool in Hin. lia.
Qed.

Lemma sound_initial : sound (initial (T := T)).
Proof.
  split; [|split]; [|done|].
  - split; [done|]. intros x Hx. by apply elem_of_nil in Hx.
  - simpl. intros h Hh. lia.
Qed.

Lemma sound_perform_all prog w : sound w → sound (perform_all prog w).
Proof.
  revert w. induction prog as [|o prog IH]; intros w Hs; [done|].
  apply IH. destruct o; [by apply sound_New|by apply sound_step].
Qed.

Lemma sound_run acts w : sound w → sound (run acts w).
Proof.
  revert w. induction acts as [|a acts IH]; intros w Hs; [done|].
  apply IH. by apply sound_step.
Qed.

(** X1: whatever a program does with the futures it creates (any number
    of New, Start, Cancel, Wait, from any goroutines, under any scheduling
    and timing), no future's body is entered twice, a closed done channel
    means the body ran exactly once, and the deferred close never
    panics. *)
Theorem programs_never_close_twice (prog : list (op (T := T))) :
  let w := perform_all prog initial in
  panicked w = false ∧
  ∀ h fu, futs w !! h = Some fu →
          (entered h w ≤ 1)%nat ∧ (done fu = true ↔ entered h w = 1%nat).
Proof.
  intros w. subst w.
  destruct (sound_perform_all prog initial sound_initial) as (_ & Hpan & Hall).
  split; [done|]. intros h fu Hh.
  destruct (Hall h) as (fu' & Hfu' & Hsum & Hent); [by eapply lookup_lt_Some|].
  rewrite Hh in Hfu'. injection Hfu' as <-.
  rewrite Hent. destruct (done fu); split; try lia; done.
Qed.

(** *** The stored result *)

Lemma done_stable_step a h w fu :
  sound w → futs w !! h = Some fu → done fu = true →
  futs (step a w) !! h = Some fu.
Proof.
  intros Hs Hh Hd. pose proof Hs as (_ & _ & Hall).
  destruct (Hall h) as (fu' & Hfu' & Hsum & Hent); [by eapply lookup_lt_Some|].
  rewrite Hh in Hfu'. injection Hfu' as <-. rewrite Hd in Hent.
  assert (once fu = true ∧ spawned h w = 0%nat) as [Ho Hsp].
  { destruct (once fu); split; try done; lia. }
  destruct a as [h'|dt|c|h'|h'|h'|h']; simpl; try done.
  - case_bool_decide as Hin; [|done].
    assert (h' ≠ h) as Hne.
    { intros ->. pose proof (spawned_pos h w Hin). lia. }
    unfold execute. simpl. destruct (futs w !! h') as [fu1|]; [|done].
    destruct (fn fu1 _). simpl. by rewrite list_lookup_insert_ne.
  - unfold Start. destruct (futs w !! h') as [fu1|] eqn:Hh'; [|done].
    destruct (once fu1) eqn:Ho1; [done|]. simpl.
    rewrite list_lookup_insert_ne; [done|]. intros ->. congruence.
  - unfold Cancel. by destruct (futs w !! h').
Qed.

(** X2: once Wait has returned a pair for a future, every later Wait
    returns the same pair, whatever happens in between: the slots are
    written once and the channel stays closed. *)
Theorem Wait_result_is_final (w : world T) h re acts :
  sound w → Wait h w = Some re → Wait h (run acts w) = Some re.
Proof.
  revert w. induction acts as [|a acts IH]; intros w Hs Hw; [done|].
  simpl. apply IH; [by apply sound_step|].
  unfold Wait in *. destruct (futs w !! h) as [fu|] eqn:Hh; [|done].
  destruct (done fu) eqn:Hd; [|done].
  by rewrite (done_stable_step a h w fu), Hd.
Qed.

Lemma remove_first_other (x h : nat) (p : list nat) :
  x ≠ h → x ∈ p → x ∈ remove_first h p.
Proof.
  intros Hne. induction p as [|y p IH]; simpl; [done|].
  intros [->|Hin]%elem_of_cons.
  - rewrite bool_decide_false by done. by left.
  - case_bool_decide; [done|]. right. by apply IH.
Qed.

Lemma pending_step a h f c w :
  a ≠ ARun h → pending h f c w → pending h f c (step a w).
Proof.
  intros Ha (fu & Hh & Hf & Hc & Hin).
  destruct a as [h'|dt|c'|h'|h'|h'|h']; simpl; try (by exists fu).
  - assert (h' ≠ h) as Hne by congruence.
    case_bool_decide; [|by exists fu].
    exists fu. unfold execute. simpl.
    destruct (futs w !! h') as [fu1|]; [destruct (fn fu1 _)|]; simpl.
    + rewrite list_lookup_insert_ne by done. repeat split; try done.
      by apply remove_first_other.
    + repeat split; try done. by apply remove_first_other.
  - unfold Start. destruct (futs w !! h') as [fu1|] eqn:Hh'; [|by exists fu].
    destruct (once fu1); [by exists fu|]. simpl.
    destruct (decide (h' = h)) as [->|Hne].
    + rewrite Hh in Hh'. injection Hh' as <-. eexists.
      split; [apply list_lookup_insert_eq; by eapply lookup_lt_Some|].
      simpl. repeat split; try done. apply elem_of_app. by left.
    + exists fu. simpl. rewrite list_lookup_insert_ne by done.
      repeat split; try done. apply elem_of_app. by left.
  - unfold Cancel. destruct (futs w !! h'); by exists fu.
Qed.

Lemma pending_run acts h f c w :
  ARun h ∉ acts → pending h f c w → pending h f c (run acts w).
Proof.
  revert w. induction acts as [|a acts IH]; intros w Hno Hp; [done|].
  apply not_elem_of_cons in Hno as [Hne Hno].
  apply IH; [done|]. apply pending_step; [congruence|done].
Qed.

Lemma StartNew_pending zero parent f w :
  pending (StartNew zero parent f w).2 f (Ctx (length (ctxs w)))
          (StartNew zero parent f w).1.
Proof.
  unfold StartNew.
  pose proof (New_lookup zero parent f w) as Hl.
  destruct (New zero parent f w) as [w1 h] eqn:HN. simpl in Hl.
  unfold Start. rewrite Hl. simpl.
  eexists. split; [apply list_lookup_insert_eq; by eapply lookup_lt_Some|].
  simpl. repeat split; try done. apply elem_of_app. right. by left.
Qed.

Lemma pending_runs h f c w :
  pending h f c w →
  Wait h (step (ARun h) w) = Some (f (ctx_Err (ctxs w) c)) ∧
  IsDone h (step (ARun h) w) = true.
Proof.
  intros (fu & Hh & Hf & Hc & Hin). simpl. rewrite bool_decide_true by done.
  unfold Wait, IsDone, execute. simpl. rewrite Hh, Hf, Hc.
  destruct (f _) as [r e]. simpl.
  by rewrite list_lookup_insert_eq by (by eapply lookup_lt_Some).
Qed.


Lemma StartNew_shape zero parent f (w0 : world T) :
  let w := (StartNew zero parent f w0).1 in
  let h := (StartNew zero parent f w0).2 in
  ctxs w = ctxs w0 ++ [{| cparent := parent;
                          cdeadline := ctx_Deadline (ctxs w0) parent;
                          cerr := ctx_Err (ctxs w0) parent |}] ∧
  ∃ fu, futs w !! h = Some fu ∧ ctx fu = Ctx (length (ctxs w0)).
Proof.
  intros w h. subst w h. unfold StartNew.
  pose proof (New_lookup zero parent f w0) as Hl.
  destruct (New zero parent f w0) as [w1 h] eqn:HN. simpl in Hl.
  assert (ctxs w1 = ctxs w0 ++ [{| cparent := parent;
                                   cdeadline := ctx_Deadline (ctxs w0) parent;
                                   cerr := ctx_Err (ctxs w0) parent |}]) as Hc.
  { unfold New in HN. simpl in HN. by injection HN as <- _. }
  unfold Start. rewrite Hl. simpl. split; [done|].
  eexists. split; [apply list_lookup_insert_eq; by eapply lookup_lt_Some|done].
Qed.

(** X4: New runs the body under a child of the given context. When
    neither is cancelled at creation, a Cancel of the future before its
    goroutine runs, and equally a cancel of the parent context, make the
    body see Canceled, so that Wait returns what fn answers to that. *)
Theorem cancellation_reaches_the_body zero f (w0 : world T) :
  (∀ parent,
      ctx_Err (ctxs w0) parent = None →
      let w := (StartNew zero parent f w0).1 in
      let h := (StartNew zero parent f w0).2 in
      Wait h (run [ACancel h; ARun h] w) = Some (f (Some Canceled))) ∧
  (∀ p,
      is_Some (ctxs w0 !! p) → ctx_Err (ctxs w0) (Ctx p) = None →
      let w := (StartNew zero (Ctx p) f w0).1 in
      let h := (StartNew zero (Ctx p) f w0).2 in
      Wait h (run [ACancelCtx p; ARun h] w) = Some (f (Some Canceled))).
Proof.
  split.
  - intros parent Hpar w h.
    destruct (StartNew_shape zero parent f w0) as (Hctxs & fu & Hh & Hc).
    fold w h in Hctxs, Hh.
    assert (pending h f (Ctx (length (ctxs w0))) (run [ACancel h] w)) as Hp.
    { apply pending_run; [|apply StartNew_pending].
      intros [[=]|[]%elem_of_nil]%elem_of_cons. }
    apply pending_runs in Hp as [Hp _].
    change (run [ACancel h; ARun h] w) with (step (ARun h) (run [ACancel h] w)).
    rewrite Hp. do 2 f_equal.
    simpl. unfold Cancel. rewrite Hh, Hc. simpl. rewrite Hctxs.
    eapply (ctx_Err_cancel_self (length (ctxs w0))).
    + by rewrite lookup_app_r, Nat.sub_diag by lia.
    + done.
  - intros p [np Hnp] Hpar w h.
    destruct (StartNew_shape zero (Ctx p) f w0) as (Hctxs & fu & Hh & Hc).
    fold w h in Hctxs, Hh.
    assert (pending h f (Ctx (length (ctxs w0))) (run [ACancelCtx p] w)) as Hp.
    { apply pending_run; [|apply StartNew_pending].
      intros [[=]|[]%elem_of_nil]%elem_of_cons. }
    apply pending_runs in Hp as [Hp _].
    change (run [ACancelCtx p; ARun h] w)
      with (step (ARun h) (run [ACancelCtx p] w)).
    rewrite Hp. do 2 f_equal.
    simpl. rewrite Hctxs. simpl in Hpar. rewrite Hnp in Hpar. simpl in Hpar.
    eapply (ctx_Err_cancel_child p Canceled _ np).
    + by apply lookup_app_l_Some.
    + done.
    + by rewrite lookup_app_r, Nat.sub_diag by lia.
    + done.
    + simpl. by rewrite Hnp.
    + by eapply lookup_lt_Some.
Qed.

(** *** More on WaitTimeout *)

Lemma IsDone_tick h t (w : world T) : IsDone h (step (ATick t) w) = IsDone h w.
Proof. done. Qed.

(** X5: with a future that stays pending, the timeout of WaitTimeout
    fires when the duration has elapsed and not before: after time [t] the
    call has returned the zero value with DeadlineExceeded, having called
    Cancel, exactly when [d ≤ max 0 t] (so at once for a duration that is
    not positive), and is still blocked otherwise. *)
Theorem WaitTimeout_fires_on_time zero d t h tie (w : world T) :
  IsDone h w = false →
  let w0 := (WithTimeout Background d w).1 in
  let c := (WithTimeout Background d w).2 in
  let w1 := run [ATick t] w0 in
  WaitTimeout zero d h ([ATick t], tie) w
  = if bool_decide (d ≤ Z.max 0 t)
    then Some (release c (Cancel h w1), Returned zero (Some DeadlineExceeded) [h])
    else None.
Proof.
  intros Hd w0 c w1. subst w0 c w1.
  unfold WaitTimeout. rewrite WithTimeout_Background. cbn [fst snd].
  set (n := {| cparent := Background; cdeadline := Some (now w + d);
               cerr := if bool_decide (d ≤ 0) then Some DeadlineExceeded else None |}).
  set (w0 := set_ctxs (ctxs w ++ [n]) w).
  assert (ctx_Err (ctxs (run [ATick t] w0)) (Ctx (length (ctxs w)))
          = if bool_decide (d ≤ Z.max 0 t) then Some DeadlineExceeded else None)
    as Hc.
  { simpl. rewrite (fire_lookup_root _ _ _ n);
      [|by rewrite lookup_app_r, Nat.sub_diag by lia|done].
    simpl. unfold expire, set_cerr. simpl.
    repeat (first [case_bool_decide | progress simpl]); try done; lia. }
  unfold select. rewrite Hc.
  change (IsDone h (run [ATick t] w0)) with (IsDone h w). rewrite Hd.
  by case_bool_decide.
Qed.

Lemma step_ctxs_length a (w : world T) : length (ctxs (step a w)) = length (ctxs w).
Proof.
  destruct a as [h|dt|c|h|h|h|h]; simpl; try done.
  - case_bool_decide; [|done]. unfold execute. simpl.
    destruct (futs w !! h) as [fu|]; [by destruct (fn fu _)|done].
  - unfold fire. by rewrite propagate_length, length_fmap.
  - apply cancel_length.
  - unfold Start. destruct (futs w !! h) as [fu|]; [by destruct (once fu)|done].
  - unfold Cancel. destruct (futs w !! h) as [fu|]; [|done]. simpl.
    destruct (ctx fu); [done|]. apply cancel_length.
Qed.

(** X6: when WaitTimeout returns on its timeout path, the future's own
    context has been cancelled: it reports an error from then on (Canceled,
    unless it was cancelled before), which is what a body that watches its
    context gets to see. *)
Theorem WaitTimeout_cancels_the_future zero d h s (w w' : world T) r fu i :
  WaitTimeout zero d h s w = Some (w', r) →
  r_cancelled r = [h] →
  futs w' !! h = Some fu → ctx fu = Ctx i → is_Some (ctxs w' !! i) →
  is_Some (ctx_Err (ctxs w') (Ctx i)) ∧
  r = Returned zero (r_err r) [h] ∧ is_Some (r_err r).
Proof.
  unfold WaitTimeout. rewrite WithTimeout_Background. cbn [fst snd].
  set (w0 := set_ctxs _ w). set (w1 := run s.1 w0).
  destruct (select h _ s.2 w1) as [|e|] eqn:Hsel; simpl; [| |done].
  { destruct (Wait h w1) as [[r0 e0]|]; [|done]. simpl.
    intros [= <- <-]. done. }
  intros [= <- <-] _ Hh Hc [n Hn]. split; [|by eauto].
  unfold release, Cancel in *. destruct (futs w1 !! h) as [fu1|] eqn:Hh1.
  - simpl in *. rewrite Hh1 in Hh. injection Hh as ->. rewrite Hc in *. simpl in *.
    assert (is_Some (ctx_Err (cancel i Canceled (ctxs w1)) (Ctx i))) as [e1 He1].
    { assert (is_Some (ctxs w1 !! i)) as [n1 Hn1].
      { apply lookup_lt_is_Some. apply lookup_lt_Some in Hn.
        by rewrite !cancel_length in Hn. }
      destruct (cerr n1) as [e1|] eqn:He1.
      - exists e1. apply ctx_Err_cancel_sticky. simpl. by rewrite Hn1.
      - exists Canceled. by eapply ctx_Err_cancel_self. }
    exists e1.
    by apply (ctx_Err_cancel_sticky (length (ctxs w)) Canceled _ (Ctx i) e1).
  - simpl in *. congruence.
Qed.

(** *** More on WaitAll *)

Lemma Cancel_futs h (w : world T) : futs (Cancel h w) = futs w.
Proof. unfold Cancel. by destruct (futs w !! h). Qed.

Lemma Cancel_ctxs_length h (w : world T) :
  length (ctxs (Cancel h w)) = length (ctxs w).
Proof. apply (step_ctxs_length (ACancel h)). Qed.

Lemma Cancel_sticky h (w : world T) c e :
  ctx_Err (ctxs w) c = Some e → ctx_Err (ctxs (Cancel h w)) c = Some e.
Proof.
  unfold Cancel. destruct (futs w !! h) as [fu|]; [|done]. simpl.
  apply ctx_Err_cancel_ctx_sticky.
Qed.

Lemma Cancel_sets h (w : world T) fu i :
  futs w !! h = Some fu → ctx fu = Ctx i → is_Some (ctxs w !! i) →
  is_Some (ctx_Err (ctxs (Cancel h w)) (Ctx i)).
Proof.
  intros Hh Hc [n Hn]. unfold Cancel. rewrite Hh, Hc. simpl.
  destruct (cerr n) as [e|] eqn:He.
  - exists e. apply (ctx_Err_cancel_sticky i Canceled _ (Ctx i) e).
    simpl. by rewrite Hn.
  - exists Canceled. by apply (ctx_Err_cancel_self i Canceled _ n).
Qed.

Lemma Cancel_all_frame hs (w : world T) :
  futs (foldl (λ w h, Cancel h w) w hs) = futs w ∧
  length (ctxs (foldl (λ w h, Cancel h w) w hs)) = length (ctxs w) ∧
  ∀ c e, ctx_Err (ctxs w) c = Some e →
         ctx_Err (ctxs (foldl (λ w h, Cancel h w) w hs)) c = Some e.
Proof.
  revert w. induction hs as [|x hs IH]; intros w; [done|]. simpl.
  destruct (IH (Cancel x w)) as (Hf & Hl & Hs).
  rewrite Hf, Hl, Cancel_futs, Cancel_ctxs_length. repeat split; try done.
  intros c e He. by apply Hs, Cancel_sticky.
Qed.

Lemma Cancel_all_sets hs (w : world T) h fu i :
  h ∈ hs → futs w !! h = Some fu → ctx fu = Ctx i → is_Some (ctxs w !! i) →
  is_Some (ctx_Err (ctxs (foldl (λ w h, Cancel h w) w hs)) (Ctx i)).
Proof.
  revert w. induction hs as [|x hs IH]; intros w Hin Hh Hc Hi;
    [by apply elem_of_nil in Hin|].
  simpl. apply elem_of_cons in Hin as [<-|Hin].
  - destruct (Cancel_sets h w fu i Hh Hc Hi) as [e He]. exists e.
    by apply (proj2 (proj2 (Cancel_all_frame hs (Cancel h w))) (Ctx i)).
  - apply IH; try done.
    + by rewrite Cancel_futs.
    + apply lookup_lt_is_Some. rewrite Cancel_ctxs_length.
      by apply lookup_lt_is_Some.
Qed.

(** X7: when WaitAll returns for the cancellation of its scope, every
    future of its list has had its own context cancelled: each of these
    contexts reports an error afterwards. *)
Theorem WaitAll_cancels_the_futures parent fus s (w w' : world T) r h fu i :
  WaitAll parent fus s w = Some (w', r) →
  r_cancelled r ≠ [] →
  h ∈ fus → futs w' !! h = Some fu → ctx fu = Ctx i → is_Some (ctxs w' !! i) →
  is_Some (ctx_Err (ctxs w') (Ctx i)).
Proof.
  unfold WaitAll. destruct (WithCancel parent w) as [w0 c] eqn:HW.
  destruct (WaitAll_loop c fus fus s [] w0) as [[w1 r1]|] eqn:Hloop; [|done].
  simpl. intros [= <- <-] Hcan Hin Hh Hc Hi.
  destruct (WaitAll_loop_cancelled _ _ _ _ _ _ _ _ Hloop)
    as [Hnil|(k & e & _ & _ & _ & Hw1 & _)]; [done|].
  destruct (Cancel_all_frame fus (world_at s k w0)) as (Hf & Hl & _).
  rewrite <- Hw1 in Hf, Hl.
  assert (length (cancel_ctx c Canceled (ctxs w1)) = length (ctxs w1)) as Hlen.
  { destruct c; [done|]. apply cancel_length. }
  destruct (Cancel_all_sets fus (world_at s k w0) h fu i) as [e' He']; try done.
  - by rewrite <- Hf.
  - apply lookup_lt_is_Some. rewrite <- Hl, <- Hlen. by apply lookup_lt_is_Some.
  - exists e'. rewrite <- Hw1 in He'.
    by apply (ctx_Err_cancel_ctx_sticky c Canceled _ (Ctx i) e').
Qed.

End Futures.

(** *** The theorems on the test scenarios *)
Import scenarios.

Ltac absent :=
  let Hin := fresh "Hin" in
  intros Hin;
  repeat (apply elem_of_cons in Hin as [Hin|Hin]; [discriminate|]);
  by apply elem_of_nil in Hin.

Lemma no_futures_wf : wf no_futures.
Proof. split; [done|]. intros x Hx. by apply elem_of_nil in Hx. Defined.

(** TestIdempotentStart: three calls of Start, the body runs once. *)
Lemma Start_schedules_once_witness :
  let w := (New "" Background (task "test") no_futures).1 in
  Start_times 3 0 w = (Start 0 w).1 ∧
  (entered 0 (run [AStart 0%nat; ARun 0%nat; AStart 0%nat; ARun 0%nat] w) ≤ 1)%nat.
Proof.
  pose proof (Start_schedules_once "" Background (task "test") no_futures 3
                [AStart 0%nat; ARun 0%nat; AStart 0%nat; ARun 0%nat]
                no_futures_wf ltac:(lia)) as (_ & _ & H3 & _ & H5).
  exact (conj H3 H5).
Defined.

Lemma Wait_without_Start_blocks_witness :
  Wait 0 (run [ATick 100; AWait 0%nat; ACancel 0%nat; AIsDone 0%nat]
              (New "" Background (task "test") no_futures).1) = None.
Proof.
  refine (proj1 (Wait_without_Start_blocks "" Background (task "test") no_futures
                   [ATick 100; AWait 0%nat; ACancel 0%nat; AIsDone 0%nat]
                   no_futures_wf _)).
  absent.
Defined.



(** TestNew, then more calls on the completed future. *)
Lemma Wait_result_is_final_witness :
  let w := perform_all [Make "" Background (task "test"); Do (AStart 0%nat);
                        Do (ARun 0%nat)] initial in
  Wait 0 (run [AStart 0%nat; ARun 0%nat; ACancel 0%nat; ATick 3] w)
  = Some ("test", None).
Proof.
  intros w.
  apply (Wait_result_is_final w 0 ("test", None));
    [apply sound_perform_all, sound_initial|reflexivity].
Defined.


(** TestCancel *)
Lemma cancellation_reaches_the_body_witness :
  Wait 0 (run [ACancel 0%nat; ARun 0%nat]
              (StartNew "" Background (task "completed") no_futures).1)
  = Some ("", Some Canceled).
Proof.
  exact (proj1 (cancellation_reaches_the_body "" (task "completed") no_futures)
           Background eq_refl).
Defined.

Lemma WaitTimeout_fires_on_time_witness :
  WaitTimeout "" 5 2 ([ATick 4], true) three_futures = None.
Proof.
  exact (WaitTimeout_fires_on_time "" 5 4 2 true three_futures eq_refl).
Defined.

Lemma WaitTimeout_cancels_the_future_witness :
  ∃ w' r, WaitTimeout "" 5 2 ([ATick 5], true) three_futures = Some (w', r) ∧
          is_Some (ctx_Err (ctxs w') (Ctx 2)).
Proof.
  eexists _, _. split; [reflexivity|].
  eapply (proj1 (WaitTimeout_cancels_the_future "" 5 2 ([ATick 5], true)
                   three_futures _ _ _ 2 eq_refl eq_refl eq_refl eq_refl _)).
  Unshelve. by eexists.
Defined.

Lemma WaitAll_cancels_the_futures_witness :
  ∃ w' r, WaitAll Background [0; 1; 2]%nat [([ACancelCtx 3], true)] three_futures
          = Some (w', r) ∧
          is_Some (ctx_Err (ctxs w') (Ctx 1)).
Proof.
  eexists _, _. split; [reflexivity|].
  eapply (WaitAll_cancels_the_futures Background [0; 1; 2]%nat
            [([ACancelCtx 3], true)] three_futures _ _ 1 _ 1 eq_refl).
  - discriminate.
  - apply elem_of_cons. right. by left.
  - reflexivity.
  - reflexivity.
  - by eexists.
Defined.

End future_proofs.

(** ** Package sh *)
Module sh_proofs.
Import sh.

(** *** The command builder *)
Section Builder.
Context {any : Type}.
Variable Sprintf_v : any → string.

(** C10: OptB and OptV with the empty flag return the receiver as it is,
    nil or not, so its Items are the same before and after; a boolean
    option with an empty key would contribute no item either. *)
Theorem empty_flag_ignored (b : option (Builder (any := any))) (v : option any) :
  OptB "" b = Some b ∧
  OptV "" v b = Some b ∧
  (∀ b', OptB "" b = Some b' → Items Sprintf_v b' = Items Sprintf_v b) ∧
  (∀ b', OptV "" v b = Some b' → Items Sprintf_v b' = Items Sprintf_v b) ∧
  component_Items Sprintf_v (Opt "" None) = [].
Proof.
  repeat split.
  - by intros b' [= <-].
  - by intros b' [= <-].
Qed.

(** X8: the items of a builder are the command name followed by what each
    method call contributed, in call order: Arg adds its value, OptB with
    a non-empty flag adds the flag, OptV adds the flag and the formatted
    value, and OptV with a nil value adds the flag alone, like OptB. On a
    nil receiver these calls panic. *)
Theorem Items_in_call_order (b : Builder (any := any)) (flag value : string) (v : any) :
  flag ≠ "" →
  (∃ b', Builder_Arg value (Some b) = Some (Some b') ∧
         Items Sprintf_v (Some b') = Items Sprintf_v (Some b) ++ [value]) ∧
  (∃ b', OptB flag (Some b) = Some (Some b') ∧
         Items Sprintf_v (Some b') = Items Sprintf_v (Some b) ++ [flag]) ∧
  (∃ b', OptV flag (Some v) (Some b) = Some (Some b') ∧
         Items Sprintf_v (Some b')
         = Items Sprintf_v (Some b) ++ [flag; Sprintf_v v]) ∧
  OptV flag None (Some b) = OptB flag (Some b) ∧
  Builder_Arg (any := any) value None = None ∧
  OptB (any := any) flag None = None ∧
  OptV flag (Some v) None = None.
Proof.
  intros Hflag. unfold Builder_Arg, OptB, OptV.
  rewrite !decide_False by done. simpl.
  repeat split; try (eexists; split; [done|]); simpl;
    rewrite fmap_app, concat_app; simpl;
    rewrite ?decide_False by done; by rewrite ?app_nil_r, <- ?app_comm_cons.
Qed.




(** X10: building a stage and piping further builders onto it, each onto
    the stage before, yields the store [pipeline] of the stages'
    configurations. *)
Theorem Pipe_builds_a_pipeline (cs : list config) (b : Builder (any := any)) :
  (Build Sprintf_v (Some b) (pipeline [])
   = Some (pipeline [built Sprintf_v b], 0%nat)) ∧
  (cs ≠ [] →
   PipeBuild Sprintf_v (length cs - 1) (Some b) (pipeline cs)
   = Some (pipeline (cs ++ [built Sprintf_v b]), length cs)).
Proof.
  split; [done|]. intros Hne.
  unfold PipeBuild, Build, pipeline. simpl.
  rewrite length_imap, lookup_app_r, length_imap, Nat.sub_diag
    by (by rewrite length_imap).
  simpl. rewrite insert_app_r_alt by (by rewrite length_imap).
  rewrite length_imap, Nat.sub_diag, imap_app. simpl. rewrite Nat.add_0_r.
  destruct cs as [|c cs]; [done|]. simpl. by rewrite Nat.sub_0_r.
Qed.

(** X11: a subcommand reads its parent through a pointer. Its items are
    the parent's items as they are when Items is called, options added to
    the parent after the subcommand was made included, followed by the
    subcommand's name and the subcommand's own options. *)
Theorem SubCmd_Items_follow_the_parent (st : list (Builder (any := any)))
    (p : nat) (bp : Builder) (name fs fp : string) :
  st !! p = Some bp → fs ≠ "" → fp ≠ "" →
  let '(st1, s) := SubCommand name (Some p) st in
  ∃ st2 st3,
    SubCmd_OptB fs s st1 = Some st2 ∧
    at_ptr (OptB fp) (Some p) st2 = Some st3 ∧
    SubCmd_Items Sprintf_v (Some s) st1
    = Some (Items Sprintf_v (Some bp) ++ [name]) ∧
    SubCmd_Items Sprintf_v (Some s) st3
    = Some (Items Sprintf_v (Some bp) ++ [fp] ++ [name; fs]).
Proof.
  intros Hp Hfs Hfp. simpl.
  assert (p < length st)%nat as Hlt by (by eapply lookup_lt_Some).
  unfold SubCmd_OptB, SubCmd_Items, at_ptr, deref, OptB. simpl.
  rewrite !decide_False by done. simpl.
  rewrite lookup_app_r, Nat.sub_diag by lia. simpl.
  set (st2 := <[length st := {| Cmd := name; components := [Opt fs None] |}]>
                (st ++ [{| Cmd := name; components := [] |}])).
  assert (st2 !! p = Some bp) as Hp2.
  { unfold st2. by rewrite list_lookup_insert_ne, lookup_app_l by lia. }
  assert (length st2 = S (length st)) as Hlen2.
  { unfold st2. rewrite length_insert, length_app. simpl. lia. }
  exists st2,
    (<[p := {| Cmd := Cmd bp; components := components bp ++ [Opt fp None] |}]> st2).
  split; [done|]. rewrite decide_False, Hp2 by done. simpl. split; [done|].
  rewrite lookup_app_l, Hp by lia. split; [done|].
  rewrite (list_lookup_insert_ne _ p (length st)) by lia.
  rewrite (list_lookup_insert_eq _ p) by lia.
  unfold st2 at 1. rewrite list_lookup_insert_eq by (rewrite length_app; simpl; lia).
  simpl. rewrite fmap_app, concat_app. simpl. rewrite !decide_False by done. simpl.
  by rewrite <- ?app_assoc.
Qed.

(** X12: Build called on a subcommand builds from the subcommand's own
    builder only: the command of the stage is the subcommand's name and
    its arguments are the subcommand's own options, the parent's command
    and options being left out, although Items of the subcommand lists
    them. *)
Theorem SubCmd_Build_leaves_the_parent_out (st : list (Builder (any := any)))
    (p : nat) (bp : Builder) (name fs : string) (w : world) :
  st !! p = Some bp → fs ≠ "" →
  let '(st1, s) := SubCommand name (Some p) st in
  ∃ st2 w',
    SubCmd_OptB fs s st1 = Some st2 ∧
    SubCmd_Items Sprintf_v (Some s) st2
    = Some (Items Sprintf_v (Some bp) ++ [name; fs]) ∧
    SubCmd_Build Sprintf_v s st2 w = Some (w', length (cmds w)) ∧
    cmds w' = cmds w ++ [stage None {| c_cmd := name; c_args := [fs];
                                       c_env := []; c_dir := ""; c_stdin := None |}].
Proof.
  intros Hp Hfs. simpl.
  assert (p < length st)%nat as Hlt by (by eapply lookup_lt_Some).
  unfold SubCmd_OptB, SubCmd_Build, SubCmd_Items, at_ptr, deref, OptB, Build. simpl.
  rewrite !decide_False by done. simpl.
  rewrite lookup_app_r, Nat.sub_diag by lia. simpl.
  eexists _, _. split; [done|].
  rewrite list_lookup_insert_ne by lia.
  rewrite lookup_app_l, Hp by lia.
  rewrite list_lookup_insert_eq by (rewrite length_app; simpl; lia).
  simpl. rewrite !decide_False by done. by rewrite !app_nil_r.
Qed.

End Builder.

Section WithLauncher.
Variable os_exec : launch → finished.

Lemma bind_Ret {A B : Type} (m : outcome A) (k : A → world → outcome B) b w' :
  bind m k = Ret b w' → ∃ a w1, m = Ret a w1 ∧ k a w1 = Ret b w'.
Proof. destruct m; simpl; try done. by eauto. Qed.

(** *** The exit code *)

Lemma normalize_cases (e : option error) :
  match e with
  | None => normalize e = 0
  | Some (ExitError (Exited c)) => normalize e = c
  | Some (ExitError (Signaled _)) => normalize e = -1
  | Some (OtherError _) => normalize e = -1
  end.
Proof. by destruct e as [[[c|s]|m]|]. Qed.

Lemma after_process_result cm :
  result (after_process os_exec cm)
  = Some {| exitCode := normalize (p_err (os_exec (launch_of cm)));
            stdout := stdoutBuffer cm ++ p_stdout (os_exec (launch_of cm));
            stderr := stderrBuffer cm ++ p_stderr (os_exec (launch_of cm)) |}.
Proof. done. Qed.

Lemma after_process_err cm :
  err (after_process os_exec cm) = p_err (os_exec (launch_of cm)).
Proof. done. Qed.

(** A stage without parent that has not completed: execute runs the
    process and closes the channel. *)
Lemma execute_root waitp h w cm :
  cmds w !! h = Some cm → parent cm = None → done cm = false →
  execute_with os_exec waitp h w
  = Ret () {| cmds := <[h := set_done (after_process os_exec cm)]> (cmds w);
              pool := pool w;
              trace := trace w ++ [EvExecute h; EvSpawn h; EvClose h] |}.
Proof.
  intros Hh Hp Hd. unfold execute_with, run_process, close_done. simpl.
  rewrite Hh, Hp. simpl.
  rewrite list_lookup_insert_eq by (by eapply lookup_lt_Some). simpl.
  rewrite Hd. unfold set_cmd, log. simpl.
  by rewrite list_insert_insert_eq, <- !(assoc_L (++)).
Qed.

(** C7: when a stage reaches its own execution the process is run and
    the stored exit code is 0 for a nil error of Run, the code of the
    exited process for an ExitError, -1 for an ExitError of a process that
    a signal ended, and -1 for every other error (the process could not be
    started); the error of Run is stored next to it. For a stage without
    parent, execute stores exactly this result. *)
Theorem exit_code_normalized (w : world) (h : nat) (cm : cmdImpl) :
  cmds w !! h = Some cm →
  ∃ w' cm' r,
    run_process os_exec h w = Ret () w' ∧ cmds w' !! h = Some cm' ∧
    result cm' = Some r ∧ err cm' = p_err (os_exec (launch_of cm)) ∧
    match p_err (os_exec (launch_of cm)) with
    | None => exitCode r = 0
    | Some (ExitError (Exited c)) => exitCode r = c
    | Some (ExitError (Signaled _)) => exitCode r = -1
    | Some (OtherError _) => exitCode r = -1
    end ∧
    (parent cm = None → done cm = false →
     ∃ w'', execute os_exec h w = Ret () w'' ∧
            (cmds w'' !! h ≫= result) = Some r).
Proof.
  intros Hh. unfold run_process. rewrite Hh.
  eexists _, (after_process os_exec cm), _.
  split; [done|]. split.
  { simpl. apply list_lookup_insert_eq. by eapply lookup_lt_Some. }
  split; [apply after_process_result|]. split; [apply after_process_err|].
  split; [apply normalize_cases|].
  intros Hp Hd. eexists. split; [by apply execute_root|]. simpl.
  by rewrite list_lookup_insert_eq by (by eapply lookup_lt_Some).
Qed.


(** *** Run next to Start and Wait *)

(** C2 (fails on the code): Run calls execute without the latch. On a
    single stage, a second Run, a Run after a completed Wait, and the
    goroutine that a Wait after a Run spawns, each enter execute a second
    time, run the process a second time and panic on the second close of
    the completion channel. *)
Theorem Run_bypasses_latch (c : config) :
  let twice := [EvExecute 0%nat; EvSpawn 0%nat; EvClose 0%nat;
                EvExecute 0%nat; EvSpawn 0%nat; EvClose 0%nat] in
  (∃ r w1 w2, Run os_exec 0 (pipeline [c]) = Ret r w1 ∧
              Run os_exec 0 w1 = Panics w2 ∧ trace w2 = twice) ∧
  (∃ r w1 w2, Wait os_exec 0 (pipeline [c]) = Ret r w1 ∧
              Run os_exec 0 w1 = Panics w2 ∧ trace w2 = twice) ∧
  (∃ r1 w1 r2 w2 w3, Run os_exec 0 (pipeline [c]) = Ret r1 w1 ∧
                     Wait os_exec 0 w1 = Ret r2 w2 ∧
                     schedule os_exec 0 w2 = Panics w3 ∧ trace w3 = twice).
Proof.
  intros twice. split; [|split].
  - by eexists _, _, _.
  - by eexists _, _, _.
  - by eexists _, _, _, _, _.
Qed.

(** *** A process that exits with a non-zero code *)

(** C3, as amended: when the process of a stage is run and exits with
    code [code], Run and Wait return the *exec.ExitError of the process, a
    non-nil error, together with the Result that carries [code] and the
    captured output; this holds for a single stage and for the downstream
    stage of a chain whose upstream succeeded. *)
Theorem nonzero_exit_is_returned (code : Z) :
  (∀ c : config,
      let p := os_exec (launch_of (stage None c)) in
      p_err p = Some (ExitError (Exited code)) →
      let r := {| exitCode := code; stdout := p_stdout p; stderr := p_stderr p |} in
      (∃ w', Run os_exec 0 (pipeline [c])
             = Ret (Some r, Some (ExitError (Exited code))) w') ∧
      (∃ w', Wait os_exec 0 (pipeline [c])
             = Ret (Some r, Some (ExitError (Exited code))) w')) ∧
  (∀ up down : config,
      let p := os_exec (launch_of (stage None up)) in
      let q := os_exec (launch_of (set_stdin (Some (p_stdout p))
                                             (stage (Some 0%nat) down))) in
      p_err p = None →
      p_err q = Some (ExitError (Exited code)) →
      let r := {| exitCode := code; stdout := p_stdout q; stderr := p_stderr q |} in
      (∃ w', Run os_exec 1 (pipeline [up; down])
             = Ret (Some r, Some (ExitError (Exited code))) w') ∧
      (∃ w', Wait os_exec 1 (pipeline [up; down])
             = Ret (Some r, Some (ExitError (Exited code))) w')).
Proof.
  split.
  - intros c p He r. subst r p.
    destruct (os_exec (launch_of (stage None c))) as [pe po pq] eqn:Hos.
    simpl in He. subst pe. cbv in Hos.
    split; eexists; cbv; rewrite !Hos; reflexivity.
  - intros up down p q Hp Hq r. subst r q p.
    destruct (os_exec (launch_of (stage None up))) as [pe po pq] eqn:Hos.
    simpl in Hp. subst pe. simpl in Hq.
    destruct (os_exec (launch_of (set_stdin (Some po) (stage (Some 0%nat) down))))
      as [qe qo qq] eqn:Hos'.
    simpl in Hq. subst qe. cbv in Hos, Hos'.
    split; eexists; cbv; rewrite !Hos; cbv; rewrite !Hos'; reflexivity.
Qed.

(** *** The short circuit of a chain *)



(** *** What Wait returns with an error *)


Lemma Start_n_same_parents n h w w' :
  Start_n n h w = Ret () w' → same_parents w w'.
Proof.
  revert h w w'. induction n as [|n IH]; intros h w w' Hs; simpl in Hs; [done|].
  destruct (cmds w !! h) as [cm|] eqn:Hh; [|done].
  apply bind_Ret in Hs as ([] & w1 & Hup & Hs).
  assert (same_parents w w1) as H1.
  { destruct (parent cm) as [p|]; [by eapply IH|]. by injection Hup as <-. }
  destruct (cmds w1 !! h) as [cm1|] eqn:Hh1; [|done].
  destruct (once cm1); injection Hs as <-; [done|].
  intros k. rewrite <- H1. simpl.
  destruct (decide (k = h)) as [->|Hne].
  - rewrite list_lookup_insert_eq by (by eapply lookup_lt_Some). by rewrite Hh1.
  - by rewrite list_lookup_insert_ne.
Qed.

Lemma on_chain_same_parents w w' h a :
  same_parents w w' → on_chain w' h a → on_chain w h a.
Proof.
  intros Hsame Hch. induction Hch as [h|h p a cm Hh Hp _ IH]; [constructor|].
  specialize (Hsame h). rewrite Hh in Hsame. simpl in Hsame.
  destruct (cmds w !! h) as [cm0|] eqn:Hh0; [|done].
  injection Hsame as Hsame. eapply on_chain_up; [done| |done]. congruence.
Qed.

Lemma await_done_closed exec h w w' :
  await_done exec h w = Ret () w' →
  ∃ cm, cmds w' !! h = Some cm ∧ done cm = true.
Proof.
  unfold await_done. destruct (cmds w !! h) as [cm|] eqn:Hh; [|done].
  destruct (done cm) eqn:Hd; [intros [= <-]; by eauto|].
  case_bool_decide; [|done].
  intros ([] & w1 & _ & Hk)%bind_Ret.
  destruct (cmds w1 !! h) as [cm1|] eqn:Hh1; [|done].
  destruct (done cm1) eqn:Hd1; [|done]. injection Hk as <-. by eauto.
Qed.

Lemma own_result exec h w r e w' :
  (do _, w3 <- await_done exec h w; stored h w3) = Ret (r, e) w' →
  ∃ cm, cmds w' !! h = Some cm ∧ done cm = true ∧ result cm = r ∧ err cm = e.
Proof.
  intros ([] & w3 & Haw & Hst)%bind_Ret.
  destruct (await_done_closed _ _ _ _ Haw) as (cm & Hh & Hd).
  unfold stored in Hst. rewrite Hh in Hst. injection Hst as <- <- <-. by eauto.
Qed.

Lemma Wait_n_error n h w r e w' :
  Wait_n os_exec n h w = Ret (r, Some e) w' →
  ∃ a cm, on_chain w h a ∧ cmds w' !! a = Some cm ∧ done cm = true ∧
          result cm = r ∧ err cm = Some e.
Proof.
  revert h w r e w'. induction n as [|n IH]; intros h w r e w' Hw; simpl in Hw; [done|].
  apply bind_Ret in Hw as ([] & w1 & Hst & Hw).
  apply Start_n_same_parents in Hst.
  destruct (cmds w1 !! h) as [cm|] eqn:Hh; [|done].
  destruct (parent cm) as [p|] eqn:Hp.
  - apply bind_Ret in Hw as ([r0 e0] & w2 & Hwp & Hw). simpl in Hw.
    destruct e0 as [e0|].
    + injection Hw as <- <- <-.
      destruct (IH _ _ _ _ _ Hwp) as (a & cma & Hch & Ha & Hd & Hr & He).
      exists a, cma. split; [|done].
      eapply on_chain_same_parents; [done|]. by eapply on_chain_up.
    + destruct (own_result _ _ _ _ _ _ Hw) as (cm' & Hh' & Hd & Hr & He).
      exists h, cm'. split; [constructor|done].
  - destruct (own_result _ _ _ _ _ _ Hw) as (cm' & Hh' & Hd & Hr & He).
    exists h, cm'. split; [constructor|done].
Qed.

(** C5, as amended: when Wait returns a non-nil error, the Result it
    returns with it is the stored result of a completed stage of the chain,
    the stage itself or one upstream of it, and the error is the stored
    error of that same stage. (The output in that result is what the stage
    stored; it is empty for a stage that was short-circuited, not in
    general.) *)
Theorem Wait_error_is_a_stored_error (w : world) (h : nat) r e w' :
  Wait os_exec h w = Ret (r, Some e) w' →
  ∃ a cm, on_chain w h a ∧ cmds w' !! a = Some cm ∧ done cm = true ∧
          result cm = r ∧ err cm = Some e.
Proof. apply Wait_n_error. Qed.

(** *** Start and Cancel along a chain *)

Lemma upto_lookup f h l i :
  upto f h l !! i = (λ cm, if bool_decide (i ≤ h)%nat then f cm else cm) <$> l !! i.
Proof. unfold upto. by rewrite list_lookup_imap. Qed.

Lemma upto_length f h l : length (upto f h l) = length l.
Proof. unfold upto. by rewrite length_imap. Qed.

Lemma upto_step f h l cm :
  l !! h = Some cm →
  upto f h l = <[h := f cm]> (match h with O => l | S h' => upto f h' l end).
Proof.
  intros Hh. apply list_eq. intros i. rewrite upto_lookup.
  assert (h < length l)%nat as Hlt by (by eapply lookup_lt_Some).
  destruct (decide (i = h)) as [->|Hne].
  - rewrite list_lookup_insert_eq by (destruct h; rewrite ?upto_length; lia).
    by rewrite Hh, bool_decide_true by lia.
  - rewrite list_lookup_insert_ne by done. destruct h as [|h'].
    + destruct (l !! i); [|done]. simpl. by rewrite bool_decide_false by lia.
    + rewrite upto_lookup. destruct (l !! i); [|done]. simpl.
      by rewrite (bool_decide_ext (i ≤ S h')%nat (i ≤ h')%nat) by lia.
Qed.

Lemma upto_skip f h l cm :
  l !! h = Some cm → f cm = cm →
  upto f h l = match h with O => l | S h' => upto f h' l end.
Proof.
  intros Hh Hf. rewrite (upto_step f h l cm Hh), Hf.
  apply list_insert_id. destruct h as [|h']; [done|].
  rewrite upto_lookup, Hh. simpl. by rewrite bool_decide_false by lia.
Qed.

Lemma set_once_id cm : once cm = true → set_once cm = cm.
Proof. destruct cm. simpl. by intros ->. Qed.

Lemma unlatched_S h l :
  unlatched (S h) l
  = unlatched h l ++ (if decide (once <$> l !! S h = Some false) then [S h] else []).
Proof.
  unfold unlatched. rewrite (seq_S (S h)), filter_app. reflexivity.
Qed.

Lemma Start_n_chain n h w :
  chain_shaped w → (h < length (cmds w))%nat → (h < n)%nat →
  Start_n n h w
  = Ret () {| cmds := upto set_once h (cmds w);
              pool := pool w ++ unlatched h (cmds w); trace := trace w |}.
Proof.
  intros Hch. revert h. induction n as [|n IH]; intros h Hlt Hn; [lia|].
  destruct (lookup_lt_is_Some_2 _ _ Hlt) as [cm Hh].
  simpl. rewrite Hh, (Hch h cm Hh). destruct h as [|h'].
  - simpl. rewrite Hh. unfold unlatched. simpl.
    rewrite filter_cons, filter_nil, Hh. simpl.
    destruct (once cm) eqn:Ho.
    + rewrite decide_False by done. rewrite app_nil_r.
      rewrite (upto_skip set_once 0 _ cm) by (by try apply set_once_id).
      by destruct w.
    + rewrite decide_True by done. by rewrite (upto_step set_once 0 _ cm).
  - rewrite IH by lia. simpl.
    rewrite upto_lookup, Hh. simpl. rewrite bool_decide_false by lia.
    rewrite unlatched_S, Hh. simpl. destruct (once cm) eqn:Ho.
    + rewrite decide_False by done. rewrite app_nil_r.
      by rewrite (upto_skip set_once (S h') _ cm) by (by try apply set_once_id).
    + rewrite decide_True by done.
      by rewrite (upto_step set_once (S h') _ cm), app_assoc.
Qed.


Lemma upto_chain_shaped f h w p t :
  (∀ cm, parent (f cm) = parent cm) →
  chain_shaped w → chain_shaped {| cmds := upto f h (cmds w); pool := p; trace := t |}.
Proof.
  intros Hf Hch k cm. simpl. rewrite upto_lookup.
  destruct (cmds w !! k) as [cm0|] eqn:Hk; [|done]. simpl. intros [= <-].
  case_bool_decide; rewrite ?Hf; by apply Hch.
Qed.

Lemma upto_upto f h l :
  (∀ cm, f (f cm) = f cm) → upto f h (upto f h l) = upto f h l.
Proof.
  intros Hf. apply list_eq. intros i. rewrite !upto_lookup.
  destruct (l !! i); [|done]. simpl. case_bool_decide; by rewrite ?Hf.
Qed.

Lemma unlatched_upto h l : unlatched h (upto set_once h l) = [].
Proof.
  unfold unlatched.
  destruct (filter _ (seq 0 (S h))) as [|x xs] eqn:Hf; [done|].
  assert (x ∈ x :: xs) as Hx by left. rewrite <- Hf in Hx.
  apply list_elem_of_filter in Hx as [HP Hin%elem_of_seq].
  rewrite upto_lookup in HP. destruct (l !! x); simpl in HP; [|done].
  rewrite bool_decide_true in HP by lia. done.
Qed.

(** X13: on a chain, Start of stage [h] fires the latch of every stage up
    to [h] and spawns one goroutine for each stage whose latch had not
    fired, the upstream stages first; the stages after [h], the traces and
    all other fields stay as they are. A second Start changes nothing. *)
Theorem Start_starts_the_chain (w : world) (h : nat) :
  chain_shaped w → (h < length (cmds w))%nat →
  let w' := {| cmds := upto set_once h (cmds w);
               pool := pool w ++ unlatched h (cmds w); trace := trace w |} in
  Start h w = Ret () w' ∧ Start h w' = Ret () w'.
Proof.
  intros Hch Hlt w'. subst w'. unfold Start. split; [apply Start_n_chain; [done|done|lia]|].
  rewrite Start_n_chain;
    [|by apply upto_chain_shaped|simpl; by rewrite upto_length|lia].
  simpl. by rewrite upto_upto, unlatched_upto, app_nil_r.
Qed.


(** *** The data flow of a chain *)

(** X15: in a chain of two stages whose upstream process succeeds, the
    downstream process is launched after the upstream stage has completed,
    with the upstream's captured standard output as its standard input
    (whatever input the downstream stage was configured with), and both
    Wait and Run on the downstream stage return the downstream process's
    own result and error; each process is run once. *)
Theorem output_flows_downstream (up down : config) :
  let p := os_exec (launch_of (stage None up)) in
  let fed := set_stdin (Some (p_stdout p)) (stage (Some 0%nat) down) in
  let q := os_exec (launch_of fed) in
  let r := {| exitCode := normalize (p_err q); stdout := p_stdout q;
              stderr := p_stderr q |} in
  p_err p = None →
  l_stdin (launch_of fed) = Some (p_stdout p) ∧
  (∃ w', Wait os_exec 1 (pipeline [up; down]) = Ret (Some r, p_err q) w' ∧
         pool w' = [] ∧
         trace w' = [EvExecute 0%nat; EvSpawn 0%nat; EvClose 0%nat;
                     EvExecute 1%nat; EvSpawn 1%nat; EvClose 1%nat]) ∧
  (∃ w', Run os_exec 1 (pipeline [up; down]) = Ret (Some r, p_err q) w' ∧
         trace w' = [EvExecute 1%nat; EvExecute 0%nat; EvSpawn 0%nat; EvClose 0%nat;
                     EvSpawn 1%nat; EvClose 1%nat]).
Proof.
  intros p fed q r Hp. subst r q fed p.
  destruct (os_exec (launch_of (stage None up))) as [pe po pq] eqn:Hos.
  simpl in Hp. subst pe. simpl.
  destruct (os_exec (launch_of (set_stdin (Some po) (stage (Some 0%nat) down))))
    as [qe qo qq] eqn:Hos'.
  cbv in Hos, Hos'. split; [done|].
  split; eexists; cbv; rewrite !Hos; cbv; rewrite !Hos'; cbv; done.
Qed.

(** *** Start, Cancel and Wait on one stage *)






End WithLauncher.

(** *** The theorems on the test scenarios *)
Import scenarios.

(** TestCmdRunWithError: [false] exits with 1, and Run and Wait report an
    error. *)
Lemma nonzero_exit_is_an_error :
  ¬ (∀ (os_exec : launch → finished) (c : config) (code : Z) r e w',
        p_err (os_exec (launch_of (stage None c))) = Some (ExitError (Exited code)) →
        code ≠ 0 →
        Run os_exec 0 (pipeline [c]) = Ret (r, e) w' ∨
        Wait os_exec 0 (pipeline [c]) = Ret (r, e) w' →
        e = None).
Proof.
  intros H.
  by epose proof (H shell (Config "false" [] [] "" None) 1 _ _ _
                    eq_refl ltac:(lia) (or_introl eq_refl)).
Qed.

Lemma nonzero_exit_is_returned_witness :
  ∃ w', Run shell 0 (one_stage "false")
        = Ret (Some {| exitCode := 1; stdout := []; stderr := [] |},
               Some (ExitError (Exited 1))) w'.
Proof.
  exact (proj1 (proj1 (nonzero_exit_is_returned shell 1)
                  (Config "false" [] [] "" None) eq_refl)).
Defined.

(** A failing stage that has written to both streams. *)
Lemma failed_wait_keeps_output :
  ¬ (∀ (os_exec : launch → finished) (w : world) (h : nat) r e w',
        Wait os_exec h w = Ret (Some r, Some e) w' →
        stdout r = [] ∧ stderr r = []).
Proof.
  intros H.
  by epose proof (H shell (one_stage "noisy") 0%nat _ _ _ eq_refl) as [? ?].
Qed.

Lemma Wait_error_is_a_stored_error_witness :
  ∃ a cm w', on_chain (two_stages "noisy" "wc") 1 a ∧
             cmds w' !! a = Some cm ∧ done cm = true ∧
             result cm = Some {| exitCode := 2;
                                 stdout := String.list_byte_of_string "hi";
                                 stderr := String.list_byte_of_string "oops" |} ∧
             err cm = Some (ExitError (Exited 2)).
Proof.
  destruct (Wait_error_is_a_stored_error shell (two_stages "noisy" "wc") 1 _ _ _ eq_refl)
    as (a & cm & H).
  by eexists a, cm, _.
Defined.


Lemma exit_code_normalized_witness :
  ∃ w' cm' r, run_process shell 0 (one_stage "killed") = Ret () w' ∧
              cmds w' !! 0%nat = Some cm' ∧ result cm' = Some r ∧ exitCode r = -1.
Proof.
  destruct (exit_code_normalized shell (one_stage "killed") 0
              (stage None (Config "killed" [] [] "" None)) eq_refl)
    as (w' & cm' & r & H1 & H2 & H3 & _ & H5 & _).
  by exists w', cm', r.
Defined.

(** TestSubCommand, TestComplexSubCommand *)
Lemma Items_in_call_order_witness :
  ∃ b', OptV "--max-count" (Some "5") (Some (MkBuilder "log" [Opt "--oneline" None]))
        = Some (Some b') ∧
        Items id (Some b') = ["log"; "--oneline"; "--max-count"; "5"].
Proof.
  exact (proj1 (proj2 (proj2 (Items_in_call_order id
           (MkBuilder "log" [Opt "--oneline" None])
           "--max-count" "HEAD" "5" ltac:(discriminate))))).
Defined.

Lemma Pipe_builds_a_pipeline_witness :
  PipeBuild (any := string) id 0 (New "wc") (one_stage "echo")
  = Some (two_stages "echo" "wc", 1%nat).
Proof.
  exact (proj2 (Pipe_builds_a_pipeline id [Config "echo" [] [] "" None]
                  (MkBuilder "wc" [])) ltac:(discriminate)).
Defined.

Lemma SubCmd_Items_follow_the_parent_witness :
  let '(st1, s) := SubCommand (any := string) "status" (Some 0%nat)
                     [MkBuilder "git" []] in
  ∃ st2 st3,
    SubCmd_OptB "--short" s st1 = Some st2 ∧
    at_ptr (OptB "-C") (Some 0%nat) st2 = Some st3 ∧
    SubCmd_Items id (Some s) st1 = Some ["git"; "status"] ∧
    SubCmd_Items id (Some s) st3 = Some ["git"; "-C"; "status"; "--short"].
Proof.
  exact (SubCmd_Items_follow_the_parent id [MkBuilder "git" []] 0
           (MkBuilder "git" []) "status" "--short" "-C"
           eq_refl ltac:(discriminate) ltac:(discriminate)).
Defined.

Lemma SubCmd_Build_leaves_the_parent_out_witness :
  let '(st1, s) := SubCommand (any := string) "status" (Some 0%nat)
                     [MkBuilder "git" []] in
  ∃ st2 w',
    SubCmd_OptB "--short" s st1 = Some st2 ∧
    SubCmd_Items id (Some s) st2 = Some ["git"; "status"; "--short"] ∧
    SubCmd_Build id s st2 no_stages = Some (w', 0%nat) ∧
    cmds w' = [stage None (Config "status" ["--short"] [] "" None)].
Proof.
  exact (SubCmd_Build_leaves_the_parent_out id [MkBuilder "git" []] 0
           (MkBuilder "git" []) "status" "--short" no_stages
           eq_refl ltac:(discriminate)).
Defined.

Lemma pipeline_chain_shaped cs : chain_shaped (pipeline cs).
Proof.
  intros k cm. unfold pipeline. simpl. rewrite list_lookup_imap.
  destruct (cs !! k); [|done]. simpl. by intros [= <-].
Qed.

Lemma Start_starts_the_chain_witness :
  ∃ w', Start 1 (two_stages "echo" "wc") = Ret () w' ∧ pool w' = [0; 1]%nat ∧
        Start 1 w' = Ret () w'.
Proof.
  destruct (Start_starts_the_chain
              (pipeline [Config "echo" [] [] "" None; Config "wc" [] [] "" None]) 1
              (pipeline_chain_shaped _) ltac:(simpl; lia)) as [H1 H2].
  eexists. split; [exact H1|]. split; [reflexivity|exact H2].
Defined.


(** TestPipeBuilder *)
Lemma output_flows_downstream_witness :
  ∃ w', Wait shell 1 (two_stages "echo" "wc")
        = Ret (Some {| exitCode := 0; stdout := String.list_byte_of_string "ok";
                       stderr := [] |}, None) w'.
Proof.
  destruct (output_flows_downstream shell (Config "echo" [] [] "" None)
              (Config "wc" [] [] "" None) eq_refl) as (_ & (w' & H & _) & _).
  by exists w'.
Defined.

End sh_proofs.
